(** * A shallow embedding of the C++ code-graph indexer (parser.py, indexer.py,
    and the change detection and symbol lookup of server.py).

    Python strings are modelled as [String.string] over ASCII; a tree-sitter
    syntax tree as a rose tree whose children carry their optional field name,
    so that [child_by_field_name] and [children] are both available. *)

From Stdlib Require Import String Ascii List Bool Arith ZArith Lia.
Set Warnings "-register-all".
Import ListNotations.
Open Scope string_scope.
Open Scope list_scope.
Open Scope nat_scope.

(* ------------------------------------------------------------------------- *)
(** ** Python string helpers *)

Module Py.

Definition is_colon (c : ascii) : bool := Ascii.eqb c ":"%char.

(** [s.split("::")]: scans left to right, a "::" at the current position is a
    separator, any other character goes to the current segment. *)
Fixpoint split_dc (s : string) : list string :=
  match s with
  | EmptyString => [""]
  | String c rest =>
      let prepend := fun l => match l with
                              | [] => [String c ""]
                              | h :: t => String c h :: t
                              end in
      match rest with
      | String d rest' =>
          if is_colon c && is_colon d then "" :: split_dc rest'
          else prepend (split_dc rest)
      | EmptyString => prepend (split_dc rest)
      end
  end.

(** [s.split("::")[-1]] *)
Definition last_seg (s : string) : string := last (split_dc s) "".

(** ["::".join(parts)] *)
Definition join_dc (parts : list string) : string := String.concat "::" parts.

(** [s.rsplit("::", 1)] when it has two parts: the split at the rightmost
    occurrence of "::". [None] when "::" does not occur in [s]. *)
Fixpoint rsplit_dc (s : string) : option (string * string) :=
  match s with
  | EmptyString => None
  | String c rest =>
      match rsplit_dc rest with
      | Some (l, r) => Some (String c l, r)
      | None =>
          match rest with
          | String d rest' =>
              if is_colon c && is_colon d then Some ("", rest') else None
          | EmptyString => None
          end
      end
  end.

(** ["::" in s] *)
Definition contains_dc (s : string) : bool :=
  match rsplit_dc s with Some _ => true | None => false end.

(** [s[:n]] *)
Definition take (n : nat) (s : string) : string := substring 0 n s.

(** [s.strip(chars)]: removes leading and trailing characters of the set. *)
Fixpoint lstrip_with (p : ascii -> bool) (s : string) : string :=
  match s with
  | EmptyString => EmptyString
  | String c rest => if p c then lstrip_with p rest else s
  end.

Fixpoint rev_str (s : string) (acc : string) : string :=
  match s with
  | EmptyString => acc
  | String c rest => rev_str rest (String c acc)
  end.

Definition strip_with (p : ascii -> bool) (s : string) : string :=
  rev_str (lstrip_with p (rev_str (lstrip_with p s) "")) "".

(** [str.isspace] on ASCII: \t \n \v \f \r, \x1c-\x1f and space. *)
Definition is_space (c : ascii) : bool :=
  let n := nat_of_ascii c in
  (Nat.leb 9 n && Nat.leb n 13) || (Nat.leb 28 n && Nat.leb n 32).

(** [s.strip()] *)
Definition strip (s : string) : string := strip_with is_space s.

(** [str.splitlines()] on ASCII: \n, \r, \r\n, \v, \f, \x1c, \x1d and \x1e end
    a line; a trailing line break does not start a new (empty) line. *)
Definition is_line_break (c : ascii) : bool :=
  let n := nat_of_ascii c in
  (Nat.leb 10 n && Nat.leb n 13) || (Nat.leb 28 n && Nat.leb n 30).

Fixpoint splitlines_aux (s : string) (cur : string) : list string :=
  match s with
  | EmptyString => if String.eqb cur "" then [] else [rev_str cur ""]
  | String c rest =>
      if is_line_break c then
        if Nat.eqb (nat_of_ascii c) 13 then
          match rest with
          | String d r =>
              if Nat.eqb (nat_of_ascii d) 10 then rev_str cur "" :: splitlines_aux r ""
              else rev_str cur "" :: splitlines_aux rest ""
          | EmptyString => [rev_str cur ""]
          end
        else rev_str cur "" :: splitlines_aux rest ""
      else splitlines_aux rest (String c cur)
  end.

Definition splitlines (s : string) : list string := splitlines_aux s "".

(** ["\n".join(lines)] *)
Definition join_nl (l : list string) : string := String.concat (String (ascii_of_nat 10) "") l.

(** No character of [a] is a colon. *)
Definition colon_free (a : string) : Prop := existsb is_colon (list_ascii_of_string a) = false.

End Py.

(* ------------------------------------------------------------------------- *)
(** ** parser.py: syntax trees, entities, relationships, chunks *)

Module Parser.
Import Py.

(** A tree-sitter node: type, source text ([content[start_byte:end_byte]]),
    start and end row, and its children, each with its optional field name. *)
Inductive node : Type :=
| Node (ntype : string) (ntext : string) (start_row end_row : nat) (kids : kid_list)
with kid_list : Type :=
| KNil
| KCons (field : option string) (child : node) (rest : kid_list).

Scheme node_mut := Induction for node Sort Prop
  with kid_list_mut := Induction for kid_list Sort Prop.

Fixpoint kid_pairs (ks : kid_list) : list (option string * node) :=
  match ks with
  | KNil => []
  | KCons f c ks' => (f, c) :: kid_pairs ks'
  end.

Fixpoint of_pairs (l : list (option string * node)) : kid_list :=
  match l with
  | [] => KNil
  | (f, c) :: l' => KCons f c (of_pairs l')
  end.

Definition node_type (n : node) : string := let '(Node t _ _ _ _) := n in t.
Definition node_text (n : node) : string := let '(Node _ x _ _ _) := n in x.
Definition start_row (n : node) : nat := let '(Node _ _ r _ _) := n in r.
Definition end_row (n : node) : nat := let '(Node _ _ _ r _) := n in r.
Definition kids (n : node) : list (option string * node) :=
  let '(Node _ _ _ _ k) := n in kid_pairs k.

(** [node.children] *)
Definition children (n : node) : list node := map snd (kids n).

Definition is_field (f : string) (k : option string * node) : bool :=
  match fst k with Some g => String.eqb g f | None => false end.

(** [node.child_by_field_name(f)]: the first child carrying field [f]. *)
Definition child_by_field_name (n : node) (f : string) : option node :=
  option_map snd (find (is_field f) (kids n)).

Definition mem_str (s : string) (l : list string) : bool :=
  existsb (String.eqb s) l.

Record Entity := mkEntity {
  etype : string;               (* class, function, struct, enum *)
  simple_name : string;
  qualified_name : string;
  signature : option string;
  start_line : nat;
  end_line : nat;
  is_public : bool;
  complexity_score : nat;
  is_definition : bool          (* metadata["is_definition"]; has_templates is not modelled *)
}.

Record Relationship := mkRel {
  from_entity : string;
  to_entity : string;
  relationship_type : string;
  context : string;
  line_number : nat
}.

Inductive mval := MBool (b : bool) | MNat (n : nat) | MStr (s : string).

Record CodeChunk := mkChunk {
  entity_name : option string;
  chunk_type : string;
  ch_content : string;
  ch_start_line : nat;
  ch_end_line : nat;
  ch_metadata : list (string * mval)
}.

(** The parser's mutable fields [current_namespace] and [current_class],
    with the two output lists the traversal appends to. *)
Record PState := mkPState {
  current_namespace : list string;
  current_class : option string;
  p_entities : list Entity;
  p_relationships : list Relationship
}.

Definition set_ns (st : PState) (ns : list string) : PState :=
  mkPState ns (current_class st) (p_entities st) (p_relationships st).
Definition set_class (st : PState) (c : option string) : PState :=
  mkPState (current_namespace st) c (p_entities st) (p_relationships st).
Definition add_entity (st : PState) (e : Entity) : PState :=
  mkPState (current_namespace st) (current_class st) (p_entities st ++ [e])
           (p_relationships st).
Definition add_rels (st : PState) (rs : list Relationship) : PState :=
  mkPState (current_namespace st) (current_class st) (p_entities st)
           (p_relationships st ++ rs).

(** [_build_qualified_name] *)
Definition build_qualified_name (st : PState) (simple : string) : string :=
  join_dc (current_namespace st
           ++ match current_class st with
              | Some c => if String.eqb c "" then [] else [last_seg c]
              | None => []
              end
           ++ [simple]).

(** [_is_public]: "In a real implementation, track access specifiers". *)
Definition is_public_node (n : node) : bool := true.

Definition control_flow_types : list string :=
  ["if_statement"; "while_statement"; "for_statement";
   "switch_statement"; "case_statement"; "catch_clause"].

(** [count_control_flow]: control-flow nodes in the subtree, the node itself
    included. *)
Fixpoint cf_count (n : node) : nat :=
  let '(Node t _ _ _ ks) := n in
  (if mem_str t control_flow_types then 1 else 0) + cf_count_kids ks
with cf_count_kids (ks : kid_list) : nat :=
  match ks with
  | KNil => 0
  | KCons _ c ks' => cf_count c + cf_count_kids ks'
  end.

(** [_calculate_complexity] *)
Definition calculate_complexity (n : node) : nat := 1 + cf_count n.

(** [_get_function_name_node] *)
Definition get_function_name_node (declarator : node) : option node :=
  let d := if String.eqb (node_type declarator) "function_declarator"
           then child_by_field_name declarator "declarator"
           else Some declarator in
  match d with
  | Some d =>
      if String.eqb (node_type d) "identifier" then Some d
      else if mem_str (node_type d) ["qualified_identifier"; "field_identifier"] then
        find (fun c => mem_str (node_type c) ["identifier"; "field_identifier"])
             (rev (children d))
      else if String.eqb (node_type d) "destructor_name" then Some d
      else None
  | None => None
  end.

(** [_extract_base_classes] *)
Definition extract_base_classes (base_clause : node) : list string :=
  map node_text
      (filter (fun c => mem_str (node_type c) ["type_identifier"; "qualified_identifier"])
              (children base_clause)).

(** [node.type.replace('_specifier', '')] for the two class-like types. *)
Definition specifier_keyword (t : string) : string :=
  if String.eqb t "class_specifier" then "class" else "struct".

Definition class_entity (n : node) (st : PState) (simple : string) : Entity :=
  mkEntity (if String.eqb (node_type n) "class_specifier" then "class" else "struct")
           simple (build_qualified_name st simple)
           (Some (specifier_keyword (node_type n) ++ " " ++ simple)%string)
           (start_row n + 1) (end_row n + 1) true 0 false.

Definition inherit_rels (n : node) (qn simple : string) : list Relationship :=
  match child_by_field_name n "base_clause" with
  | Some bc =>
      map (fun base => mkRel qn base "inherits"
                             ("class " ++ simple ++ " : " ++ base)%string (start_row n + 1))
          (extract_base_classes bc)
  | None => []
  end.

Definition function_entity (n declarator : node) (st : PState) (simple : string) : Entity :=
  mkEntity "function" simple (build_qualified_name st simple)
           (Some (node_text declarator))
           (start_row n + 1) (end_row n + 1) (is_public_node n)
           (calculate_complexity n)
           (String.eqb (node_type n) "function_definition").

Definition enum_entity (n : node) (st : PState) (simple : string) : Entity :=
  mkEntity "enum" simple (build_qualified_name st simple)
           (Some ("enum " ++ simple)%string) (start_row n + 1) (end_row n + 1) true 0 false.

(** [_extract_entities]: the walk threads the parser's mutable state. The
    [body] field's children are visited by [walk_body]; a node of none of the
    handled kinds has all its children visited by [walk]. *)
Fixpoint extract_entities (n : node) (st : PState) {struct n} : PState :=
  let '(Node t _ _ _ ks) := n in
  if String.eqb t "namespace_definition" then
    match child_by_field_name n "name" with
    | Some nm =>
        let st1 := set_ns st (current_namespace st ++ [node_text nm]) in
        let st2 := walk_body ks st1 in
        set_ns st2 (removelast (current_namespace st2))
    | None => st
    end
  else if mem_str t ["class_specifier"; "struct_specifier"] then
    match child_by_field_name n "name" with
    | Some nm =>
        let simple := node_text nm in
        let qn := build_qualified_name st simple in
        let st1 := add_entity (add_rels st (inherit_rels n qn simple))
                              (class_entity n st simple) in
        let old_class := current_class st1 in
        let st2 := walk_body ks (set_class st1 (Some qn)) in
        set_class st2 old_class
    | None => st
    end
  else if mem_str t ["function_definition"; "function_declarator"] then
    let declarator := if String.eqb t "function_declarator" then Some n
                      else child_by_field_name n "declarator" in
    match declarator with
    | Some d =>
        match get_function_name_node d with
        | Some nm => add_entity st (function_entity n d st (node_text nm))
        | None => st
        end
    | None => st
    end
  else if String.eqb t "enum_specifier" then
    match child_by_field_name n "name" with
    | Some nm => add_entity st (enum_entity n st (node_text nm))
    | None => st
    end
  else walk ks st
(** [for child in node.children: ...] *)
with walk (ks : kid_list) (st : PState) {struct ks} : PState :=
  match ks with
  | KNil => st
  | KCons _ c ks' => walk ks' (extract_entities c st)
  end
(** [body = node.child_by_field_name("body")] and, when found,
    [for child in body.children: ...] *)
with walk_body (ks : kid_list) (st : PState) {struct ks} : PState :=
  match ks with
  | KNil => st
  | KCons (Some f) (Node _ _ _ _ bk) ks' =>
      if String.eqb f "body" then walk bk st else walk_body ks' st
  | KCons None _ ks' => walk_body ks' st
  end.

Definition quote_chars (c : ascii) : bool :=
  Ascii.eqb c (ascii_of_nat 34) || Ascii.eqb c "<"%char || Ascii.eqb c ">"%char.

(** [_extract_relationships]: include and call edges; neither gets a "from"
    entity. Children are always visited afterwards. *)
Fixpoint extract_relationships (n : node) (rs : list Relationship) {struct n}
  : list Relationship :=
  let '(Node t x r _ ks) := n in
  let rs1 :=
    if String.eqb t "preproc_include" then
      match find (fun c => mem_str (node_type c) ["string_literal"; "system_lib_string"])
                 (children n) with
      | Some c =>
          let include_path := strip_with quote_chars (node_text c) in
          if String.eqb include_path "" then rs
          else rs ++ [mkRel "" include_path "includes" x (r + 1)]
      | None => rs
      end
    else if String.eqb t "call_expression" then
      match child_by_field_name n "function" with
      | Some f => rs ++ [mkRel "" (node_text f) "calls" (take 200 x) (r + 1)]
      | None => rs
      end
    else rs in
  relationships_kids ks rs1
with relationships_kids (ks : kid_list) (rs : list Relationship) {struct ks}
  : list Relationship :=
  match ks with
  | KNil => rs
  | KCons _ c ks' => relationships_kids ks' (extract_relationships c rs)
  end.

Definition nl : string := String (ascii_of_nat 10) "".

(** The upward scan for a comment block above an entity; [None] stands for
    the [IndexError] of [lines[i]] out of range. *)
Fixpoint scan_comments (lines : list string) (idx : list nat) (acc : list string)
  : option (list string) :=
  match idx with
  | [] => Some acc
  | i :: idx' =>
      match nth_error lines i with
      | None => None
      | Some l =>
          let line := strip l in
          if String.prefix "//" line || String.prefix "/*" line || String.prefix "*" line
          then scan_comments lines idx' (l :: acc)
          else if String.eqb line "" then scan_comments lines idx' acc
          else Some acc
      end
  end.

(** [range(start_line - 2, max(-1, start_line - 20), -1)] for [start_line > 1] *)
Definition comment_indices (start : nat) : list nat :=
  let count := if start <=? 19 then start - 1 else 18 in
  map (fun k => start - 2 - k) (seq 0 count).

Definition chunk_type_of (e : Entity) : string :=
  if String.eqb (etype e) "function" && is_definition e then "implementation"
  else if String.eqb (etype e) "function" then "declaration"
  else if mem_str (etype e) ["class"; "struct"] then "declaration"
  else "mixed".

Definition entity_chunks (lines : list string) (e : Entity) : option (list CodeChunk) :=
  let entity_lines := firstn (end_line e - (start_line e - 1)) (skipn (start_line e - 1) lines) in
  let entity_code := join_nl entity_lines in
  let main :=
    if 100 <? length entity_lines then
      mkChunk (Some (qualified_name e)) (chunk_type_of e) (join_nl (firstn 100 entity_lines))
              (start_line e) (start_line e + 100)
              [("truncated", MBool true); ("original_end", MNat (end_line e))]
    else
      mkChunk (Some (qualified_name e)) (chunk_type_of e) entity_code
              (start_line e) (end_line e) [] in
  if 1 <? start_line e then
    match scan_comments lines (comment_indices (start_line e)) [] with
    | None => None
    | Some comment_lines =>
        if 2 <? length comment_lines then
          Some [main; mkChunk (Some (qualified_name e)) "comment_block"
                        (join_nl comment_lines ++ nl ++ nl ++ take 200 entity_code)%string
                        (start_line e - length comment_lines) (start_line e)
                        [("comment_for", MStr (qualified_name e))]]
        else Some [main]
    end
  else Some [main].

(** [_create_chunks] *)
Fixpoint create_chunks_aux (lines : list string) (es : list Entity) : option (list CodeChunk) :=
  match es with
  | [] => Some []
  | e :: es' =>
      match entity_chunks lines e, create_chunks_aux lines es' with
      | Some c, Some cs => Some (c ++ cs)
      | _, _ => None
      end
  end.

Definition create_chunks (es : list Entity) (content : string) : option (list CodeChunk) :=
  create_chunks_aux (splitlines content) es.

Definition initial_pstate : PState := mkPState [] None [] [].

Definition ParseOut : Type := (list Entity * list Relationship * list CodeChunk)%type.

(** [CppParser.parse_file]: [None] is an exception raised while parsing. The
    namespace and class fields are reset at the start, so the parser's state
    from an earlier call does not matter. *)
Definition parse_file (root : node) (content : string) : option ParseOut :=
  let st := extract_entities root initial_pstate in
  match create_chunks (p_entities st) content with
  | Some chunks => Some (p_entities st, extract_relationships root (p_relationships st), chunks)
  | None => None
  end.

(** [parse_cpp_file], given tree-sitter as a function from content to tree. *)
Definition parse_cpp_file (tree_sitter : string -> node) (content : string) : option ParseOut :=
  parse_file (tree_sitter content) content.

Definition kid_list_of (n : node) : kid_list := let '(Node _ _ _ _ k) := n in k.

(** [c] is [root] or a node below it. *)
Inductive subtree (root : node) : node -> Prop :=
| sub_refl : subtree root root
| sub_kid : forall n f c, subtree root n -> In (f, c) (kids n) -> subtree root c.

(** Every node of a subtree, in pre-order. *)
Fixpoint nodes_of (n : node) : list node :=
  let '(Node _ _ _ _ ks) := n in n :: nodes_of_kids ks
with nodes_of_kids (ks : kid_list) : list node :=
  match ks with
  | KNil => []
  | KCons _ c ks' => nodes_of c ++ nodes_of_kids ks'
  end.

Definition is_control_flow (n : node) : bool := mem_str (node_type n) control_flow_types.

(** An inheritance edge, or an edge without a "from" entity. *)
Definition rel_shape (r : Relationship) : Prop :=
  relationship_type r = "inherits" \/ from_entity r = "".

Definition entities_of (root : node) : list Entity :=
  p_entities (extract_entities root initial_pstate).

(** [st'] continues [st]: the same namespace stack and class, and the entity
    and relationship lists of [st] extended at their ends. *)
Definition pstate_grows (st st' : PState) : Prop :=
  current_namespace st' = current_namespace st /\
  current_class st' = current_class st /\
  (exists es, p_entities st' = p_entities st ++ es) /\
  (exists rs, p_relationships st' = p_relationships st ++ rs).

End Parser.

(* ------------------------------------------------------------------------- *)
(** ** Lexical scopes, as the spec describes them *)

(** Section 9 of the spec asks for a visitor that threads an immutable scope
    context down the recursion. [lexical_entities] is that visitor: it visits
    the same nodes as [_extract_entities] and returns, for each entity in
    order, the lexical scope path at its position and its simple name. *)
Module Lexical.
Import Py Parser.

Inductive scope := ScNs (name : string) | ScCls (name : string).

Definition scope_name (sc : scope) : string :=
  match sc with ScNs s => s | ScCls s => s end.

Fixpoint lexical_entities (p : list scope) (n : node) {struct n} : list (list scope * string) :=
  let '(Node t _ _ _ ks) := n in
  if String.eqb t "namespace_definition" then
    match child_by_field_name n "name" with
    | Some nm => lexical_body (p ++ [ScNs (node_text nm)]) ks
    | None => []
    end
  else if mem_str t ["class_specifier"; "struct_specifier"] then
    match child_by_field_name n "name" with
    | Some nm => (p, node_text nm) :: lexical_body (p ++ [ScCls (node_text nm)]) ks
    | None => []
    end
  else if mem_str t ["function_definition"; "function_declarator"] then
    let declarator := if String.eqb t "function_declarator" then Some n
                      else child_by_field_name n "declarator" in
    match declarator with
    | Some d =>
        match get_function_name_node d with
        | Some nm => [(p, node_text nm)]
        | None => []
        end
    | None => []
    end
  else if String.eqb t "enum_specifier" then
    match child_by_field_name n "name" with
    | Some nm => [(p, node_text nm)]
    | None => []
    end
  else lexical_kids p ks
with lexical_kids (p : list scope) (ks : kid_list) {struct ks} : list (list scope * string) :=
  match ks with
  | KNil => []
  | KCons _ c ks' => lexical_entities p c ++ lexical_kids p ks'
  end
with lexical_body (p : list scope) (ks : kid_list) {struct ks} : list (list scope * string) :=
  match ks with
  | KNil => []
  | KCons (Some f) (Node _ _ _ _ bk) ks' =>
      if String.eqb f "body" then lexical_kids p bk else lexical_body p ks'
  | KCons None _ ks' => lexical_body p ks'
  end.

(** The lexical nesting path of the spec: every enclosing scope, then the name. *)
Definition lexical_path_name (p : list scope) (s : string) : string :=
  join_dc (map scope_name p ++ [s]).

Fixpoint ns_names (p : list scope) : list string :=
  match p with
  | [] => []
  | ScNs s :: p' => s :: ns_names p'
  | ScCls _ :: p' => ns_names p'
  end.

Fixpoint innermost_class (p : list scope) : option string :=
  match p with
  | [] => None
  | ScNs _ :: p' => innermost_class p'
  | ScCls c :: p' => match innermost_class p' with Some c' => Some c' | None => Some c end
  end.

(** The enclosing namespaces, then the innermost enclosing class, then the name. *)
Definition scoped_name (p : list scope) (s : string) : string :=
  join_dc (ns_names p ++ match innermost_class p with Some c => [c] | None => [] end ++ [s]).

(** A plain identifier: non-empty, without ':'. *)
Definition plain (s : string) : bool :=
  negb (String.eqb s "") && negb (existsb is_colon (list_ascii_of_string s)).

Definition plain_names (l : list (list scope * string)) : bool :=
  forallb (fun ps => forallb (fun sc => plain (scope_name sc)) (fst ps) && plain (snd ps)) l.

(** Namespaces, then at most one class. *)
Fixpoint flat_path (p : list scope) : bool :=
  match p with
  | [] => true
  | [ScCls _] => true
  | ScNs _ :: p' => flat_path p'
  | ScCls _ :: _ => false
  end.

(** Every scope name of the path is plain. *)
Definition scopes_plain (p : list scope) : bool :=
  forallb (fun sc => plain (scope_name sc)) p.

(** The parser's [current_class] against the innermost enclosing class: both
    absent, or the former's last "::" segment is the latter. *)
Inductive cls_agrees : option string -> option string -> Prop :=
| ca_none : cls_agrees None None
| ca_some : forall c qn, last_seg qn = c -> cls_agrees (Some c) (Some qn).

(** The parser's state is the one it has at lexical path [p]. *)
Definition state_at (p : list scope) (st : PState) : Prop :=
  current_namespace st = ns_names p /\ cls_agrees (innermost_class p) (current_class st).

(** Running [f] from [st] appends the names [l] scoped by their paths, and
    leaves the namespace and class context as it found it. *)
Definition names_after (f : PState -> PState) (l : list (list scope * string)) (st : PState)
  : Prop :=
  map qualified_name (p_entities (f st)) =
    map qualified_name (p_entities st) ++ map (fun ps => scoped_name (fst ps) (snd ps)) l /\
  current_namespace (f st) = current_namespace st /\
  current_class (f st) = current_class st.

End Lexical.

(* ------------------------------------------------------------------------- *)
(** ** Concrete syntax trees *)

Module Trees.
Import Parser.

Definition mk (t x : string) (l : list (option string * node)) : node :=
  Node t x 0 0 (of_pairs l).
Definition leaf (t x : string) : node := mk t x [].

(** tree-sitter-cpp's tree for [namespace A { class B { void c() {} } }]
    (one line; the missing ";" after the class is a zero-width token). *)
Definition tree_ABc : node :=
  mk "translation_unit" "namespace A { class B { void c() {} } }"
   [(None, mk "namespace_definition" "namespace A { class B { void c() {} } }"
     [(None, leaf "namespace" "namespace");
      (Some "name", leaf "namespace_identifier" "A");
      (Some "body", mk "declaration_list" "{ class B { void c() {} } }"
        [(None, leaf "{" "{");
         (None, mk "class_specifier" "class B { void c() {} }"
           [(None, leaf "class" "class");
            (Some "name", leaf "type_identifier" "B");
            (Some "body", mk "field_declaration_list" "{ void c() {} }"
              [(None, leaf "{" "{");
               (None, mk "function_definition" "void c() {}"
                 [(Some "type", leaf "primitive_type" "void");
                  (Some "declarator", mk "function_declarator" "c()"
                    [(Some "declarator", leaf "field_identifier" "c");
                     (Some "parameters", mk "parameter_list" "()"
                       [(None, leaf "(" "("); (None, leaf ")" ")")])]);
                  (Some "body", mk "compound_statement" "{}"
                    [(None, leaf "{" "{"); (None, leaf "}" "}")])]);
               (None, leaf "}" "}")])]);
         (None, leaf ";" "");
         (None, leaf "}" "}")])])].

Definition src_ABc : string := "namespace A { class B { void c() {} } }".

(** [class B { class C { class D {}; }; };] *)
Definition tree_BCD : node :=
  mk "translation_unit" "class B { class C { class D {}; }; };"
   [(None, mk "class_specifier" "class B { class C { class D {}; }; }"
     [(None, leaf "class" "class");
      (Some "name", leaf "type_identifier" "B");
      (Some "body", mk "field_declaration_list" "{ class C { class D {}; }; }"
        [(None, leaf "{" "{");
         (None, mk "field_declaration" "class C { class D {}; };"
           [(Some "type", mk "class_specifier" "class C { class D {}; }"
              [(None, leaf "class" "class");
               (Some "name", leaf "type_identifier" "C");
               (Some "body", mk "field_declaration_list" "{ class D {}; }"
                 [(None, leaf "{" "{");
                  (None, mk "field_declaration" "class D {};"
                    [(Some "type", mk "class_specifier" "class D {}"
                       [(None, leaf "class" "class");
                        (Some "name", leaf "type_identifier" "D");
                        (Some "body", mk "field_declaration_list" "{}"
                          [(None, leaf "{" "{"); (None, leaf "}" "}")])]);
                     (None, leaf ";" ";")]);
                  (None, leaf "}" "}")])]);
            (None, leaf ";" ";")]);
         (None, leaf "}" "}")])]);
    (None, leaf ";" ";")].

(** [class B {};] *)
Definition tree_B : node :=
  mk "translation_unit" "class B {};"
   [(None, mk "class_specifier" "class B {}"
     [(None, leaf "class" "class");
      (Some "name", leaf "type_identifier" "B");
      (Some "body", mk "field_declaration_list" "{}"
        [(None, leaf "{" "{"); (None, leaf "}" "}")])]);
    (None, leaf ";" ";")].

(** [int f(int x) { if (x) return 1; return 0; }] *)
Definition tree_f : node :=
  mk "translation_unit" "int f(int x) { if (x) return 1; return 0; }"
   [(None, mk "function_definition" "int f(int x) { if (x) return 1; return 0; }"
     [(Some "type", leaf "primitive_type" "int");
      (Some "declarator", mk "function_declarator" "f(int x)"
        [(Some "declarator", leaf "identifier" "f");
         (Some "parameters", mk "parameter_list" "(int x)"
           [(None, leaf "(" "(");
            (None, mk "parameter_declaration" "int x"
              [(Some "type", leaf "primitive_type" "int");
               (Some "declarator", leaf "identifier" "x")]);
            (None, leaf ")" ")")])]);
      (Some "body", mk "compound_statement" "{ if (x) return 1; return 0; }"
        [(None, leaf "{" "{");
         (None, mk "if_statement" "if (x) return 1;"
           [(None, leaf "if" "if");
            (Some "condition", mk "condition_clause" "(x)"
              [(None, leaf "(" "("); (Some "value", leaf "identifier" "x");
               (None, leaf ")" ")")]);
            (Some "consequence", mk "return_statement" "return 1;"
              [(None, leaf "return" "return"); (None, leaf "number_literal" "1");
               (None, leaf ";" ";")])]);
         (None, mk "return_statement" "return 0;"
           [(None, leaf "return" "return"); (None, leaf "number_literal" "0");
            (None, leaf ";" ";")]);
         (None, leaf "}" "}")])])].

(** [void g() { f(); }] *)
Definition tree_call : node :=
  mk "translation_unit" "void g() { f(); }"
   [(None, mk "function_definition" "void g() { f(); }"
     [(Some "type", leaf "primitive_type" "void");
      (Some "declarator", mk "function_declarator" "g()"
        [(Some "declarator", leaf "identifier" "g");
         (Some "parameters", mk "parameter_list" "()" [(None, leaf "(" "("); (None, leaf ")" ")")])]);
      (Some "body", mk "compound_statement" "{ f(); }"
        [(None, leaf "{" "{");
         (None, mk "expression_statement" "f();"
           [(None, mk "call_expression" "f()"
              [(Some "function", leaf "identifier" "f");
               (Some "arguments", mk "argument_list" "()" [(None, leaf "(" "("); (None, leaf ")" ")")])]);
            (None, leaf ";" ";")]);
         (None, leaf "}" "}")])])].

Definition src_call : string := "void g() { f(); }".

(** The two bytes of [é] in UTF-8. *)
Definition eacute : string := String (ascii_of_nat 195) (String (ascii_of_nat 169) EmptyString).

(** [// ] followed by 200 times [é], then [void f(){ g(); }] on line 2, as
    UTF-8 bytes. *)
Definition src_eacute : string :=
  "// " ++ String.concat "" (repeat eacute 200) ++ String (ascii_of_nat 10) "void f(){ g(); }".

(** tree-sitter-cpp's tree for [src_eacute], with the texts that
    [_get_node_text] gives its nodes: [content[node.start_byte:node.end_byte]]
    slices the decoded [str] with byte offsets. The comment ends at byte 403
    while the string has only 220 characters, so the root and the comment get
    the whole content and every node of line 2 (bytes 404 to 420) gets [""]. *)
Definition tree_eacute : node :=
  let e t l := Node t "" 1 1 (of_pairs l) in
  Node "translation_unit" src_eacute 0 1 (of_pairs
   [(None, Node "comment" src_eacute 0 0 KNil);
    (None, e "function_definition"
     [(Some "type", e "primitive_type" []);
      (Some "declarator", e "function_declarator"
        [(Some "declarator", e "identifier" []);
         (Some "parameters", e "parameter_list" [(None, e "(" []); (None, e ")" [])])]);
      (Some "body", e "compound_statement"
        [(None, e "{" []);
         (None, e "expression_statement"
           [(None, e "call_expression"
              [(Some "function", e "identifier" []);
               (Some "arguments", e "argument_list" [(None, e "(" []); (None, e ")" [])])]);
            (None, e ";" [])]);
         (None, e "}" [])])])]).

End Trees.
(* ------------------------------------------------------------------------- *)
(** ** indexer.py: the store and [CodeIndexer] *)

Module Indexer.
Import Py Parser.

(** Rows of the [entities], [relationships], [code_chunks] and [files] tables. *)
Record SEnt := mkSEnt {
  se_id : nat; se_file : nat; se_type : string; se_qname : string; se_simple : string;
  se_signature : option string; se_start : nat; se_end : nat; se_complexity : nat;
  se_public : bool; se_parent : option nat
}.

Record SRel := mkSRel {
  sr_from : nat; sr_to : nat; sr_type : string; sr_context : string; sr_line : nat
}.

Record SChunk := mkSChunk {
  sc_entity : option nat; sc_file : nat; sc_type : string; sc_content : string;
  sc_start : nat; sc_end : nat; sc_embedding : list nat; sc_metadata : list (string * mval)
}.

Record FileRow := mkFileRow {
  f_id : nat; f_path : string; f_hash : string; f_status : string
}.

(** The database; [next_eid] is the [SERIAL] sequence of [entities.id]. *)
Record DB := mkDB {
  files : list FileRow; ents : list SEnt; rels : list SRel; chunks : list SChunk;
  next_eid : nat
}.

(** The database and the indexer's in-memory [entity_cache]. *)
Record World := mkWorld { db : DB; cache : list (string * nat) }.

Definition set_ents (d : DB) (es : list SEnt) : DB :=
  mkDB (files d) es (rels d) (chunks d) (next_eid d).
Definition set_rels (d : DB) (rs : list SRel) : DB :=
  mkDB (files d) (ents d) rs (chunks d) (next_eid d).
Definition set_chunks (d : DB) (cs : list SChunk) : DB :=
  mkDB (files d) (ents d) (rels d) cs (next_eid d).
Definition set_files (d : DB) (fs : list FileRow) : DB :=
  mkDB fs (ents d) (rels d) (chunks d) (next_eid d).

(** A Python dict as an association list, the latest binding first. *)
Definition lookup {A} (k : string) (m : list (string * A)) : option A :=
  option_map snd (find (fun p => String.eqb (fst p) k) m).

Definition ent_ids (es : list SEnt) : list nat := map se_id es.
Definition mem_nat (x : nat) (l : list nat) : bool := existsb (Nat.eqb x) l.

(** The error cases: the embedding model raising, and a foreign key check
    of the database failing. *)
Inductive err := EmbeddingError | ForeignKeyViolation.

Inductive res (A : Type) := Ok (a : A) | Err (e : err).
Arguments Ok {A} a.
Arguments Err {A} e.

Definition M (A : Type) : Type := World -> res A * World.

Definition ret {A} (a : A) : M A := fun w => (Ok a, w).
Definition bind {A B} (m : M A) (k : A -> M B) : M B :=
  fun w => match m w with
           | (Ok a, w') => k a w'
           | (Err e, w') => (Err e, w')
           end.
Definition fail {A} (e : err) : M A := fun w => (Err e, w).

Notation "x <- m ;; k" := (bind m (fun x => k)) (at level 61, m at next level, right associativity).
Notation "m ;;; k" := (bind m (fun _ => k)) (at level 61, right associativity).

Fixpoint mapM_ {A} (f : A -> M unit) (l : list A) : M unit :=
  match l with
  | [] => ret tt
  | x :: l' => f x ;;; mapM_ f l'
  end.

(** [async with conn.transaction()]: on an exception the tables are rolled
    back; the [SERIAL] sequence of [entities.id] is not (PostgreSQL sequences
    are not transactional), and the in-memory cache keeps what was written
    to it. *)
Definition transaction {A} (m : M A) : M A :=
  fun w => match m w with
           | (Ok a, w') => (Ok a, w')
           | (Err e, w') =>
               (Err e, mkWorld (mkDB (files (db w)) (ents (db w)) (rels (db w))
                                     (chunks (db w)) (next_eid (db w')))
                               (cache w'))
           end.

(** [ON DELETE CASCADE] along [entities.parent_id]: entities whose parent
    row is gone are removed, repeatedly. *)
Fixpoint prune_orphans (fuel : nat) (es : list SEnt) : list SEnt :=
  match fuel with
  | 0 => es
  | S k =>
      let ids := ent_ids es in
      prune_orphans k (filter (fun e => match se_parent e with
                                        | Some p => mem_nat p ids
                                        | None => true
                                        end) es)
  end.

(** [DELETE FROM entities WHERE file_id = $1] with its cascades to
    [relationships] (both endpoints) and [code_chunks.entity_id]. *)
Definition delete_file_entities (fid : nat) : M unit :=
  fun w =>
    let d := db w in
    let es1 := filter (fun e => negb (se_file e =? fid)) (ents d) in
    let es2 := prune_orphans (length es1) es1 in
    let removed := filter (fun i => negb (mem_nat i (ent_ids es2))) (ent_ids (ents d)) in
    let rs := filter (fun r => negb (mem_nat (sr_from r) removed)
                               && negb (mem_nat (sr_to r) removed)) (rels d) in
    let cs := filter (fun c => match sc_entity c with
                               | Some i => negb (mem_nat i removed)
                               | None => true
                               end) (chunks d) in
    (Ok tt, mkWorld (mkDB (files d) es2 rs cs (next_eid d)) (cache w)).

(** [_insert_entity], followed in [index_file] by the writes to
    [entity_map] and [self.entity_cache]. *)
Definition insert_entity (fid : nat) (e : Entity) : M nat :=
  fun w =>
    let d := db w in
    let id := next_eid d in
    let row := mkSEnt id fid (etype e) (qualified_name e) (simple_name e) (signature e)
                      (start_line e) (end_line e) (complexity_score e) (is_public e) None in
    (Ok id, mkWorld (mkDB (files d) (ents d ++ [row]) (rels d) (chunks d) (S id))
                    ((qualified_name e, id) :: cache w)).

Fixpoint insert_entities (fid : nat) (es : list Entity) (emap : list (string * nat))
  : M (list (string * nat)) :=
  match es with
  | [] => ret emap
  | e :: es' => id <- insert_entity fid e ;; insert_entities fid es' ((qualified_name e, id) :: emap)
  end.

(** [UPDATE entities SET parent_id = $1 WHERE id = $2] *)
Definition update_parent (pid id : nat) : M unit :=
  fun w =>
    let d := db w in
    if mem_nat pid (ent_ids (ents d)) then
      (Ok tt, mkWorld (set_ents d (map (fun e => if se_id e =? id then
                          mkSEnt (se_id e) (se_file e) (se_type e) (se_qname e) (se_simple e)
                                 (se_signature e) (se_start e) (se_end e) (se_complexity e)
                                 (se_public e) (Some pid)
                        else e) (ents d))) (cache w))
    else (Err ForeignKeyViolation, w).

(** The parent pass of [index_file]. *)
Definition resolve_parent (emap : list (string * nat)) (e : Entity) : M unit :=
  if contains_dc (qualified_name e) then
    match rsplit_dc (qualified_name e) with
    | Some (parent_name, _) =>
        match lookup parent_name emap, lookup (qualified_name e) emap with
        | Some pid, Some id => update_parent pid id
        | _, _ => ret tt
        end
    | None => ret tt
    end
  else ret tt.

(** [SELECT id FROM entities WHERE simple_name = $1 LIMIT 1] *)
Definition fetch_by_simple_name (s : string) : M (option nat) :=
  fun w => (Ok (option_map se_id (find (fun e => String.eqb (se_simple e) s) (ents (db w)))), w).

(** [INSERT INTO relationships ...]: both foreign keys are checked. *)
Definition insert_rel_row (f t : nat) (rel : Relationship) : M unit :=
  fun w =>
    let d := db w in
    if mem_nat f (ent_ids (ents d)) && mem_nat t (ent_ids (ents d)) then
      (Ok tt, mkWorld (set_rels d (rels d ++ [mkSRel f t (relationship_type rel)
                                                   (context rel) (line_number rel)])) (cache w))
    else (Err ForeignKeyViolation, w).

(** [_insert_relationship] *)
Definition insert_relationship (emap : list (string * nat)) (rel : Relationship) : M unit :=
  fun w =>
    let from_id := match lookup (from_entity rel) emap with
                   | Some i => Some i
                   | None => lookup (from_entity rel) (cache w)
                   end in
    if String.eqb (relationship_type rel) "includes" then (Ok tt, w)
    else
      (to_id <- (match lookup (to_entity rel) emap with
                 | Some i => ret (Some i)
                 | None => match lookup (to_entity rel) (cache w) with
                           | Some i => ret (Some i)
                           | None => fetch_by_simple_name (last_seg (to_entity rel))
                           end
                 end) ;;
       match from_id, to_id with
       | Some f, Some t => if negb (f =? 0) && negb (t =? 0) then insert_rel_row f t rel
                           else ret tt
       | _, _ => ret tt
       end) w.

Section WithEncoder.

(** The embedding model's [encode]; [None] is an exception it raises. *)
Variable encode : string -> option (list nat).

Definition embed (s : string) : M (list nat) :=
  fun w => match encode s with
           | Some v => (Ok v, w)
           | None => (Err EmbeddingError, w)
           end.

(** [INSERT INTO code_chunks ...]: the entity foreign key is checked. *)
Definition insert_chunk_row (c : SChunk) : M unit :=
  fun w =>
    let d := db w in
    let ok := match sc_entity c with
              | Some i => mem_nat i (ent_ids (ents d))
              | None => true
              end in
    if ok then (Ok tt, mkWorld (set_chunks d (chunks d ++ [c])) (cache w))
    else (Err ForeignKeyViolation, w).

(** [_insert_chunk] *)
Definition insert_chunk (emap : list (string * nat)) (fid : nat) (c : CodeChunk) : M unit :=
  emb <- embed (ch_content c) ;;
  let entity_id := match entity_name c with
                   | Some n => if String.eqb n "" then None else lookup n emap
                   | None => None
                   end in
  insert_chunk_row (mkSChunk entity_id fid (chunk_type c) (ch_content c)
                             (ch_start_line c) (ch_end_line c) emb (ch_metadata c)).

(** [UPDATE files SET status = 'indexed', ... WHERE id = $2] *)
Definition mark_indexed (fid : nat) : M unit :=
  fun w =>
    let d := db w in
    (Ok tt, mkWorld (set_files d (map (fun f => if f_id f =? fid then
                                     mkFileRow (f_id f) (f_path f) (f_hash f) "indexed"
                                   else f) (files d))) (cache w)).

(** [_simple_file_indexing]: windows of [chunk_size] lines starting every
    [chunk_size - overlap] lines; no transaction, each insert commits. *)
Definition chunk_size : nat := 100.
Definition overlap : nat := 20.

(** [range(0, n, step)] *)
Definition py_range (n step : nat) : list nat :=
  map (fun k => step * k) (seq 0 ((n + step - 1) / step)).

Definition fallback_window (lines : list string) (i : nat) : list string :=
  firstn chunk_size (skipn i lines).

Definition fallback_step (fid : nat) (lines : list string) (i : nat) : M unit :=
  let chunk_lines := fallback_window lines i in
  let chunk_text := join_nl chunk_lines in
  if String.length (strip chunk_text) <? 50 then ret tt
  else
    emb <- embed chunk_text ;;
    insert_chunk_row (mkSChunk None fid "mixed" chunk_text (i + 1) (i + length chunk_lines)
                               emb [("fallback", MBool true)]).

Definition simple_file_indexing (fid : nat) (content : string) : M unit :=
  let lines := splitlines content in
  mapM_ (fallback_step fid lines) (py_range (length lines) (chunk_size - overlap)).

(** [index_file], given the outcome of [parse_cpp_file]. *)
Definition index_file (fid : nat) (content : string) (parsed : option ParseOut) : M unit :=
  match parsed with
  | None => simple_file_indexing fid content
  | Some (entities, relationships, code_chunks) =>
      transaction (
        delete_file_entities fid ;;;
        entity_map <- insert_entities fid entities [] ;;
        mapM_ (resolve_parent entity_map) entities ;;;
        mapM_ (insert_relationship entity_map) relationships ;;;
        mapM_ (insert_chunk entity_map fid) code_chunks ;;;
        mark_indexed fid)
  end.

Definition index_cpp_file (tree_sitter : string -> node) (fid : nat) (content : string) : M unit :=
  index_file fid content (parse_cpp_file tree_sitter content).

End WithEncoder.

(** The fallback as the spec describes it: windows of 100 lines whose first
    lines are 0, 80, 160, ... below the line count; a window whose stripped
    text is shorter than 50 characters is skipped, any other one is stored
    as a "mixed" chunk of no entity, marked as a fallback chunk. *)
Definition fallback_starts (n : nat) : list nat :=
  filter (fun i => i <? n) (map (fun k => 80 * k) (seq 0 n)).

Definition fallback_row (encode : string -> option (list nat)) (fid : nat) (lines : list string)
  (i : nat) : list SChunk :=
  let window := firstn 100 (skipn i lines) in
  let text := join_nl window in
  if String.length (strip text) <? 50 then []
  else [mkSChunk None fid "mixed" text (i + 1) (i + length window)
                 (match encode text with Some v => v | None => [] end)
                 [("fallback", MBool true)]].

Definition fallback_rows (encode : string -> option (list nat)) (fid : nat) (content : string)
  : list SChunk :=
  let lines := splitlines content in
  flat_map (fallback_row encode fid lines) (fallback_starts (length lines)).

(** Every relationship row references two entity rows. *)
Definition ri_ok (d : DB) : bool :=
  forallb (fun r => mem_nat (sr_from r) (ent_ids (ents d)) && mem_nat (sr_to r) (ent_ids (ents d)))
          (rels d).

Definition keys_nonempty {A} (m : list (string * A)) : bool :=
  forallb (fun kv => negb (String.eqb (fst kv) "")) m.

Definition names_nonempty (es : list Entity) : bool :=
  forallb (fun e => negb (String.eqb (qualified_name e) "")) es.

(** The relationship rows are those of [R0] and inheritance edges. *)
Definition rels_new_inherits (R0 : list SRel) (d : DB) : Prop :=
  forall r, In r (rels d) -> In r R0 \/ sr_type r = "inherits".

Definition graph_inv (R0 : list SRel) (w : World) : Prop :=
  (ri_ok (db w) = true /\ rels_new_inherits R0 (db w)) /\ keys_nonempty (cache w) = true.

(** [m] keeps the invariant [I] of the world, and its result satisfies [Q]. *)
Definition keeps {A} (I : World -> Prop) (Q : A -> Prop) (m : M A) : Prop :=
  forall w, I w -> I (snd (m w)) /\ match fst (m w) with Ok a => Q a | Err _ => True end.

(** [m] writes neither entities nor relationships nor the cache. *)
Definition frame {A} (m : M A) : Prop :=
  forall w, ents (db (snd (m w))) = ents (db w) /\ rels (db (snd (m w))) = rels (db w) /\
            cache (snd (m w)) = cache w.

End Indexer.
(* ------------------------------------------------------------------------- *)
(** ** server.py and [batch_index_files]: change detection and symbol lookup *)

Module Server.
Import Py Parser Indexer.

Definition byte_in (c : ascii) (lo hi : nat) : bool :=
  (lo <=? nat_of_ascii c) && (nat_of_ascii c <=? hi).

Definition utf8_cont (c : ascii) : bool := byte_in c 128 191.

(** The well-formed UTF-8 sequences of two, three and four bytes
    (Unicode, table 3-7), by their first bytes. *)
Definition utf8_two (a b : ascii) : bool := byte_in a 194 223 && utf8_cont b.

Definition utf8_three (a b c : ascii) : bool :=
  ((Nat.eqb (nat_of_ascii a) 224 && byte_in b 160 191) ||
   (byte_in a 225 236 && utf8_cont b) ||
   (Nat.eqb (nat_of_ascii a) 237 && byte_in b 128 159) ||
   (byte_in a 238 239 && utf8_cont b)) && utf8_cont c.

Definition utf8_four (a b c d : ascii) : bool :=
  ((Nat.eqb (nat_of_ascii a) 240 && byte_in b 144 191) ||
   (byte_in a 241 243 && utf8_cont b) ||
   (Nat.eqb (nat_of_ascii a) 244 && byte_in b 128 143)) && utf8_cont c && utf8_cont d.

(** [encoding='utf-8', errors='ignore'] followed by [str.encode()]: the
    well-formed sequences are kept and every other byte is dropped. Python
    drops the maximal prefix of a well-formed sequence at once; as its
    bytes after the first are continuation bytes, which start no sequence,
    dropping them one at a time gives the same result. *)
Fixpoint utf8_ignore (raw : string) : string :=
  match raw with
  | EmptyString => EmptyString
  | String a r =>
      if nat_of_ascii a <? 128 then String a (utf8_ignore r)
      else match r with
           | EmptyString => utf8_ignore r
           | String b r2 =>
               if utf8_two a b then String a (String b (utf8_ignore r2))
               else match r2 with
                    | EmptyString => utf8_ignore r
                    | String c r3 =>
                        if utf8_three a b c then String a (String b (String c (utf8_ignore r3)))
                        else match r3 with
                             | EmptyString => utf8_ignore r
                             | String d r4 =>
                                 if utf8_four a b c d
                                 then String a (String b (String c (String d (utf8_ignore r4))))
                                 else utf8_ignore r
                             end
                    end
           end
  end.

(** Universal newlines of text mode: "\r\n" and a lone "\r" become "\n". *)
Fixpoint universal_newlines (raw : string) : string :=
  match raw with
  | EmptyString => EmptyString
  | String c rest =>
      if Nat.eqb (nat_of_ascii c) 13 then
        match rest with
        | String d r => if Nat.eqb (nat_of_ascii d) 10 then String "010"%char (universal_newlines r)
                        else String "010"%char (universal_newlines rest)
        | EmptyString => String "010"%char EmptyString
        end
      else String c (universal_newlines rest)
  end.

(** [open(path, 'r', encoding='utf-8', errors='ignore').read()], as the
    UTF-8 bytes of the string read: the decoding drops malformed bytes, then
    newlines are translated ("\r" and "\n" are single bytes that occur in
    no multi-byte sequence). *)
Definition read_text (raw : string) : string := universal_newlines (utf8_ignore raw).

Definition find_file (path : string) (fs : list FileRow) : option FileRow :=
  find (fun f => String.eqb (f_path f) path) fs.

Definition max_fid (fs : list FileRow) : nat := fold_right (fun f m => Nat.max (f_id f) m) 0 fs.

(** [INSERT INTO files ... ON CONFLICT (path) DO UPDATE ... RETURNING id];
    a new row gets the next [SERIAL] value. *)
Definition upsert_file (path hash : string) : M nat :=
  fun w =>
    let d := db w in
    match find_file path (files d) with
    | Some r =>
        (Ok (f_id r), mkWorld (set_files d (map (fun f => if String.eqb (f_path f) path
                                                  then mkFileRow (f_id f) path hash "indexing"
                                                  else f) (files d))) (cache w))
    | None =>
        let id := S (max_fid (files d)) in
        (Ok id, mkWorld (set_files d (files d ++ [mkFileRow id path hash "indexing"])) (cache w))
    end.

Section WithCollaborators.

(** tree-sitter, the embedding model and SHA-256 (as a hex digest). *)
Variable tree_sitter : string -> node.
Variable encode : string -> option (list nat).
Variable sha256 : string -> string.

(** [asyncio.gather(..., return_exceptions=True)]: an exception of one file
    is reported and the others proceed. *)
Definition catch_file (m : M unit) : M unit :=
  fun w => match m w with
           | (Ok _, w') => (Ok tt, w')
           | (Err _, w') => (Ok tt, w')
           end.

(** One file of [batch_index_files]: read, hash the text read, upsert the
    [files] row, index. Returns the indexed path. *)
Definition index_one (file : string * string) : M string :=
  let '(path, raw) := file in
  let content := read_text raw in
  fid <- upsert_file path (sha256 content) ;;
  catch_file (index_cpp_file encode tree_sitter fid content) ;;;
  ret path.

Fixpoint mapM {A B} (f : A -> M B) (l : list A) : M (list B) :=
  match l with
  | [] => ret []
  | x :: l' => y <- f x ;; ys <- mapM f l' ;; ret (y :: ys)
  end.

(** [batch_index_files]: batches of 10 run in order. Within a batch the
    source runs the [index_file] tasks concurrently with [asyncio.gather];
    this is the schedule in which each task runs to completion, in list
    order. Entity ids and the shared cache depend on the schedule.
    Returns the paths handed to [index_file]. *)
Definition batch_index_files (fs : list (string * string)) : M (list string) :=
  mapM index_one fs.

(** [initial_indexing]: every file found under the monitored paths. *)
Definition initial_indexing (found : list (string * string)) : M (list string) :=
  batch_index_files found.

(** The test of [check_for_changes] for one file, with
    [calculate_file_hash] over the raw bytes. *)
Definition is_changed (rows : list FileRow) (file : string * string) : bool :=
  match find_file (fst file) rows with
  | None => true
  | Some r => negb (String.eqb (f_hash r) (sha256 (snd file)))
  end.

(** [check_for_changes] *)
Definition check_for_changes (found : list (string * string)) : M (list string) :=
  fun w =>
    let changed := filter (is_changed (files (db w))) found in
    match changed with
    | [] => (Ok [], w)
    | _ => batch_index_files changed w
    end.

End WithCollaborators.

(** SQL [LIKE] with [\] as escape character; [None] is the error raised
    for a pattern ending in the escape character. *)
Fixpoint like (p s : string) {struct p} : option bool :=
  match p with
  | EmptyString => Some (match s with EmptyString => true | _ => false end)
  | String c p' =>
      if Ascii.eqb c "%"%char then
        (fix any (s : string) : option bool :=
           match like p' s with
           | Some true => Some true
           | Some false => match s with
                           | EmptyString => Some false
                           | String _ s' => any s'
                           end
           | None => None
           end) s
      else if Ascii.eqb c "_"%char then
        match s with EmptyString => Some false | String _ s' => like p' s' end
      else if Ascii.eqb c "\"%char then
        match p' with
        | EmptyString => None
        | String c2 p'' =>
            match s with
            | String d s' => if Ascii.eqb c2 d then like p'' s' else Some false
            | EmptyString => Some false
            end
        end
      else
        match s with
        | String d s' => if Ascii.eqb c d then like p' s' else Some false
        | EmptyString => Some false
        end
  end.

Record Usage := mkUsage {
  u_caller : string; u_caller_type : string; u_file : string;
  u_line : nat; u_relationship : string; u_context : string
}.

Inductive SymbolResult :=
| SymbolNotFound (symbol : string)
| SymbolFound (sym : string) (typ : string) (file : string) (code : option string)
              (usages : option (list Usage)) (other_matches : list (string * string)).

Definition file_path_of (d : DB) (fid : nat) : option string :=
  option_map f_path (find (fun f => f_id f =? fid) (files d)).

(** Rows of a query, in the order the store returns them. *)
Fixpoint filter_opt {A} (p : A -> option bool) (l : list A) : option (list A) :=
  match l with
  | [] => Some []
  | x :: l' =>
      match p x, filter_opt p l' with
      | Some b, Some r => Some (if b then x :: r else r)
      | _, _ => None
      end
  end.

Section WithCollation.
(** The database collation's comparison of file paths. *)
Variable path_cmp : string -> string -> comparison.

(** [ORDER BY f.path, r.line_number]: a stable insertion sort. *)
Definition usage_le (a b : Usage) : bool :=
  match path_cmp (u_file a) (u_file b) with
  | Lt => true
  | Gt => false
  | Eq => u_line a <=? u_line b
  end.

Fixpoint insert_sorted (u : Usage) (l : list Usage) : list Usage :=
  match l with
  | [] => [u]
  | v :: l' => if usage_le u v then u :: v :: l' else v :: insert_sorted u l'
  end.

Fixpoint sort_usages (l : list Usage) : list Usage :=
  match l with
  | [] => []
  | u :: l' => insert_sorted u (sort_usages l')
  end.

(** [SELECT content FROM code_chunks WHERE entity_id = $1 ORDER BY start_line LIMIT 1] *)
Definition first_chunk (d : DB) (eid : nat) : option string :=
  let cs := filter (fun c => match sc_entity c with Some i => i =? eid | None => false end) (chunks d) in
  option_map sc_content
    (fold_right (fun c best => match best with
                               | Some b => if sc_start c <=? sc_start b then Some c else Some b
                               | None => Some c
                               end) None cs).

(** The usages query, joined with the caller entity and its file. *)
Definition usages_of (d : DB) (eid max_usages : nat) : list Usage :=
  firstn max_usages (sort_usages
    (flat_map (fun r =>
       if sr_to r =? eid then
         match find (fun e => se_id e =? sr_from r) (ents d) with
         | Some e => match file_path_of d (se_file e) with
                     | Some p => [mkUsage (se_qname e) (se_type e) p (sr_line r) (sr_type r) (sr_context r)]
                     | None => []
                     end
         | None => []
         end
       else []) (rels d))).

(** [LIMIT $2] with the Python int [max_usages]: PostgreSQL rejects a
    negative limit, and asyncpg cannot encode an int outside the [bigint]
    range. *)
Definition limit_invalid (max_usages : Z) : bool :=
  (max_usages <? 0)%Z || (9223372036854775807 <? max_usages)%Z.

(** The [usages] of the result: [Some None] when they are not asked for,
    [None] when the query raises. *)
Definition fetch_usages (d : DB) (eid : nat) (include_usages : bool) (max_usages : Z)
  : option (option (list Usage)) :=
  if include_usages then
    if limit_invalid max_usages then None
    else Some (Some (usages_of d eid (Z.to_nat max_usages)))
  else Some None.

(** [find_symbol]; [None] is an error raised by the database. *)
Definition find_symbol (d : DB) (symbol : string) (include_usages : bool) (max_usages : Z)
  : option SymbolResult :=
  let joined := filter (fun e => match file_path_of d (se_file e) with Some _ => true | None => false end) (ents d) in
  match filter_opt (fun e => match like ("%" ++ symbol ++ "%")%string (se_qname e) with
                             | Some b => Some (b || String.eqb (se_simple e) symbol)
                             | None => None
                             end) joined with
  | None => None
  | Some matched =>
      match firstn 10 matched with
      | [] => Some (SymbolNotFound symbol)
      | e :: others =>
          match fetch_usages d (se_id e) include_usages max_usages with
          | None => None
          | Some us =>
              Some (SymbolFound (se_qname e) (se_type e)
                      (match file_path_of d (se_file e) with Some p => p | None => "" end)
                      (first_chunk d (se_id e)) us
                      (map (fun o => (se_qname o, match file_path_of d (se_file o) with
                                                  | Some p => p | None => "" end)) others))
          end
      end
  end.

End WithCollation.

(** The ranking the spec describes for symbol lookup: candidates whose
    qualified name contains the symbol first, then those whose simple name
    is the symbol; the first best candidate in store order is the primary. *)
Fixpoint contains_sub (sub s : string) : bool :=
  String.prefix sub s || match s with EmptyString => false | String _ s' => contains_sub sub s' end.

Definition spec_rank (symbol : string) (e : SEnt) : nat :=
  (if contains_sub symbol (se_qname e) then 2 else 0) + (if String.eqb (se_simple e) symbol then 1 else 0).

Definition spec_primary (d : DB) (symbol : string) : option string :=
  let cands := filter (fun e => match file_path_of d (se_file e) with Some _ => true | None => false end
                                && (contains_sub symbol (se_qname e) || String.eqb (se_simple e) symbol))
                      (ents d) in
  option_map se_qname
    (fold_right (fun e best => match best with
                               | Some b => if spec_rank symbol b <=? spec_rank symbol e then Some e else Some b
                               | None => Some e
                               end) None cands).

Definition primary_of (r : option SymbolResult) : option string :=
  match r with Some (SymbolFound sym _ _ _ _ _) => Some sym | _ => None end.


(** The id, path and hash columns of the [files] table. *)
Definition fkeys (fs : list FileRow) : list (nat * string * string) :=
  map (fun f => (f_id f, f_path f, f_hash f)) fs.

(** [m] changes no id, path or hash of the [files] table. *)
Definition keys_frame {A} (m : M A) : Prop :=
  forall w, fkeys (files (db (snd (m w)))) = fkeys (files (db w)).


(** A row [(qualified_name, type, path)] of the callers and callees queries. *)
Definition ref_dec : forall x y : string * string * string, {x = y} + {x <> y}.
Proof. repeat decide equality. Defined.

Inductive ExplainResult :=
| EntityNotFound (entity : string)
| Explained (entity : string) (typ : string) (signature : option string) (file : string)
            (lines : nat * nat) (complexity : nat) (code : option string)
            (callers : option (list (string * string * string)))
            (callees : option (list (string * string * string))).

(** [SELECT DISTINCT e.qualified_name, e.type, f.path FROM relationships r
    JOIN entities e ON r.<side> = e.id JOIN files f ON e.file_id = f.id
    WHERE r.<other side> = $1 AND r.relationship_type = 'calls' LIMIT 20];
    [DISTINCT] leaves the row order open, [nodup] keeps the last copy. *)
Definition call_refs (d : DB) (side other : SRel -> nat) (eid : nat) : list (string * string * string) :=
  firstn 20 (nodup ref_dec (flat_map (fun r =>
    if (other r =? eid) && String.eqb (sr_type r) "calls" then
      match find (fun e => se_id e =? side r) (ents d) with
      | Some e => match file_path_of d (se_file e) with
                  | Some p => [(se_qname e, se_type e, p)]
                  | None => []
                  end
      | None => []
      end
    else []) (rels d))).

(** [explain_code]; [None] is an error raised by the database. The entity
    query has no [ORDER BY]: the first row in store order is taken, and so
    for the code chunk. *)
Definition explain_code (d : DB) (entity : string) (include_callers include_callees : bool)
  : option ExplainResult :=
  let joined := filter (fun e => match file_path_of d (se_file e) with Some _ => true | None => false end) (ents d) in
  match filter_opt (fun e => match like ("%" ++ entity ++ "%")%string (se_qname e) with
                             | Some b => Some (b || String.eqb (se_simple e) entity)
                             | None => None
                             end) joined with
  | None => None
  | Some [] => Some (EntityNotFound entity)
  | Some (e :: _) =>
      Some (Explained (se_qname e) (se_type e) (se_signature e)
              (match file_path_of d (se_file e) with Some p => p | None => "" end)
              (se_start e, se_end e) (se_complexity e)
              (option_map sc_content
                 (find (fun c => match sc_entity c with Some i => i =? se_id e | None => false end)
                       (chunks d)))
              (if include_callers then Some (call_refs d sr_from sr_to (se_id e)) else None)
              (if include_callees then Some (call_refs d sr_to sr_from (se_id e)) else None))
  end.
End Server.

(* ------------------------------------------------------------------------- *)
(** ** Concrete stores and files *)

Module Scenarios.
Import Parser Indexer Server.

(** An embedding model that always answers. *)
Definition enc (s : string) : option (list nat) := Some [String.length s].

Definition long_line : string :=
  "int main_function_with_a_long_name(int argument_count, char** argv);".

(** File 1, indexed before: one entity and its chunk. *)
Definition world_old : World :=
  mkWorld (mkDB [mkFileRow 1 "a.cpp" "h" "indexed"]
                [mkSEnt 1 1 "function" "old" "old" None 1 1 1 true None]
                []
                [mkSChunk (Some 1) 1 "declaration" "void old();" 1 1 [11] []]
                2)
          [].

(** A store holding one entity [f] of file 2. *)
Definition world_f : World :=
  mkWorld (mkDB [mkFileRow 1 "a.cpp" "h" "indexed"; mkFileRow 2 "b.cpp" "h" "indexed"]
                [mkSEnt 1 2 "function" "f" "f" None 1 1 1 true None]
                [] [] 2)
          [("f", 1)].

(** 90 long lines: two fallback windows, starting at lines 1 and 81. *)
Definition content90 : string := String.concat Parser.nl (repeat long_line 90).

(** An embedding model that fails on texts of fewer than 1000 characters
    starting with [long_line], i.e. on the second window of [content90]. *)
Definition enc_fail_short (s : string) : option (list nat) :=
  if String.prefix long_line s && (String.length s <? 1000) then None else Some [1].

(** A tree-sitter stand-in for files whose tree does not matter. *)
Definition ts_empty (_ : string) : node := Trees.leaf "translation_unit" "".

(** SHA-256 is injective on the inputs considered; the identity stands for it. *)
Definition sha_id (s : string) : string := s.

Definition raw_lf : string := String "i" (String ";" (String "010"%char EmptyString)).
Definition raw_crlf : string :=
  String "i" (String ";" (String "013"%char (String "010"%char EmptyString))).

(** The [files] row written when [raw] was indexed. *)
Definition world_indexed (raw : string) : World :=
  mkWorld (mkDB [mkFileRow 1 "a.cpp" (sha_id (read_text raw)) "indexed"] [] [] [] 1) [].

(** The "C" collation: paths compared byte by byte. *)
Definition collate_c : string -> string -> comparison := String.compare.

(** Entities [foobar] and [x::foo] of file a.cpp, stored in that order. *)
Definition db_foo : DB :=
  mkDB [mkFileRow 1 "a.cpp" "h" "indexed"]
       [mkSEnt 1 1 "function" "foobar" "foobar" None 1 1 1 true None;
        mkSEnt 2 1 "function" "x::foo" "foo" None 3 3 1 true None]
       [] [] 3.

End Scenarios.

(* ========================================================================= *)
(** * Properties *)

Module PyFacts.
Import Py.

Lemma split_dc_noncolon : forall c rest, is_colon c = false ->
  split_dc (String c rest) =
  match split_dc rest with [] => [String c ""] | h :: t => String c h :: t end.
Proof.
  intros c rest H. destruct rest as [|d rest']; [reflexivity|].
  change (split_dc (String c (String d rest'))) with
    (if is_colon c && is_colon d then "" :: split_dc rest'
     else match split_dc (String d rest') with
          | [] => [String c ""] | h :: t => String c h :: t end).
  rewrite H. reflexivity.
Qed.

Lemma split_dc_colon_free : forall a, colon_free a -> split_dc a = [a].
Proof.
  induction a as [|c a IH]; intros H; [reflexivity|].
  unfold colon_free in H. cbn in H. apply orb_false_iff in H as [Hc Ha].
  rewrite split_dc_noncolon by exact Hc. rewrite (IH Ha). reflexivity.
Qed.

Lemma split_dc_sep : forall a r, colon_free a ->
  split_dc (a ++ "::" ++ r) = a :: split_dc r.
Proof.
  induction a as [|c a IH]; intros r H; [reflexivity|].
  unfold colon_free in H. cbn in H. apply orb_false_iff in H as [Hc Ha].
  change ((String c a ++ "::" ++ r)%string) with (String c (a ++ "::" ++ r)).
  rewrite split_dc_noncolon by exact Hc. rewrite (IH r Ha). reflexivity.
Qed.

Lemma split_join : forall l, l <> [] -> Forall colon_free l -> split_dc (join_dc l) = l.
Proof.
  induction l as [|a l IH]; intros Hne Hf; [congruence|].
  inversion Hf as [|? ? Ha Hl]; subst.
  destruct l as [|b l].
  - apply split_dc_colon_free, Ha.
  - change (join_dc (a :: b :: l)) with (a ++ "::" ++ join_dc (b :: l))%string.
    rewrite split_dc_sep by exact Ha. rewrite IH by (congruence || exact Hl). reflexivity.
Qed.

Lemma last_seg_join : forall l s, Forall colon_free (l ++ [s]) ->
  last_seg (join_dc (l ++ [s])) = s.
Proof.
  intros l s H. unfold last_seg. rewrite split_join.
  - apply last_last.
  - destruct l; discriminate.
  - exact H.
Qed.

End PyFacts.

Module ParserFacts.
Import Py Parser.

Section Preserve.

Variable root : node.
Variable Inv : PState -> Prop.

Hypothesis inv_set_ns : forall st ns, Inv st -> Inv (set_ns st ns).
Hypothesis inv_set_class : forall st c, Inv st -> Inv (set_class st c).
Hypothesis inv_class : forall n st s, subtree root n ->
  mem_str (node_type n) ["class_specifier"; "struct_specifier"] = true -> Inv st ->
  Inv (add_entity (add_rels st (inherit_rels n (build_qualified_name st s) s))
                  (class_entity n st s)).
Hypothesis inv_function : forall n d st s, subtree root n ->
  mem_str (node_type n) ["function_definition"; "function_declarator"] = true -> Inv st ->
  Inv (add_entity st (function_entity n d st s)).
Hypothesis inv_enum : forall n st s, subtree root n ->
  node_type n = "enum_specifier" -> Inv st ->
  Inv (add_entity st (enum_entity n st s)).

Lemma extract_entities_inv_all : forall n,
  subtree root n ->
  (forall st, Inv st -> Inv (extract_entities n st)) /\
  (forall st, Inv st -> Inv (walk (kid_list_of n) st)).
Proof.
  apply (node_mut
    (fun n => subtree root n ->
       (forall st, Inv st -> Inv (extract_entities n st)) /\
       (forall st, Inv st -> Inv (walk (kid_list_of n) st)))
    (fun ks => (forall f c, In (f, c) (kid_pairs ks) -> subtree root c) ->
       forall st, Inv st -> Inv (walk ks st) /\ Inv (walk_body ks st))).
  - intros t x a b ks IH Hsub.
    assert (Hks : forall f c, In (f, c) (kid_pairs ks) -> subtree root c).
    { intros f c Hin. apply (sub_kid root (Node t x a b ks) f c Hsub Hin). }
    split; [|intros st Hst; apply (IH Hks st Hst)].
    intros st Hst. cbn [extract_entities].
    destruct (String.eqb t "namespace_definition").
    { destruct (child_by_field_name (Node t x a b ks) "name"); [|exact Hst].
      apply inv_set_ns, (IH Hks), inv_set_ns, Hst. }
    destruct (mem_str t ["class_specifier"; "struct_specifier"]) eqn:Ec.
    { destruct (child_by_field_name (Node t x a b ks) "name"); [|exact Hst].
      apply inv_set_class, (IH Hks), inv_set_class, inv_class; assumption. }
    destruct (mem_str t ["function_definition"; "function_declarator"]) eqn:Ef.
    { destruct (if String.eqb t "function_declarator" then Some (Node t x a b ks)
                else child_by_field_name (Node t x a b ks) "declarator"); [|exact Hst].
      destruct (get_function_name_node n); [|exact Hst].
      apply inv_function; assumption. }
    destruct (String.eqb t "enum_specifier") eqn:Ee.
    { destruct (child_by_field_name (Node t x a b ks) "name"); [|exact Hst].
      apply inv_enum; [assumption | apply String.eqb_eq; exact Ee | exact Hst]. }
    apply (IH Hks st Hst).
  - intros _ st Hst. split; exact Hst.
  - intros f c IHc ks IHks Hin st Hst.
    assert (Hc : subtree root c) by (apply (Hin f c); left; reflexivity).
    assert (Hks : forall f' c', In (f', c') (kid_pairs ks) -> subtree root c')
      by (intros f' c' H; apply (Hin f' c'); right; exact H).
    destruct (IHc Hc) as [He Hw].
    split.
    + cbn [walk]. apply (IHks Hks), He, Hst.
    + destruct f as [f|]; destruct c as [t x a b bk]; cbn [walk_body].
      * destruct (String.eqb f "body"); [apply Hw, Hst | apply (IHks Hks st Hst)].
      * apply (IHks Hks st Hst).
Qed.

End Preserve.

(** A property of single entities holds of all entities the traversal adds,
    when it holds of every entity built from a node of the tree. *)
Lemma extract_entities_forall (root : node) (Pe : Entity -> Prop) :
  (forall n st s, subtree root n ->
     mem_str (node_type n) ["class_specifier"; "struct_specifier"] = true ->
     Pe (class_entity n st s)) ->
  (forall n d st s, subtree root n ->
     mem_str (node_type n) ["function_definition"; "function_declarator"] = true ->
     Pe (function_entity n d st s)) ->
  (forall n st s, subtree root n -> node_type n = "enum_specifier" ->
     Pe (enum_entity n st s)) ->
  forall st, Forall Pe (p_entities st) -> Forall Pe (p_entities (extract_entities root st)).
Proof.
  intros Hc Hf He st Hst.
  refine (proj1 (extract_entities_inv_all root (fun st => Forall Pe (p_entities st))
                  (fun st ns H => H) (fun st c H => H) _ _ _ root (sub_refl root)) st Hst);
    cbn [p_entities add_entity add_rels]; intros; apply Forall_app; split; auto.
Qed.

(** [count_control_flow] counts the control-flow nodes of the subtree. *)
Lemma cf_count_nodes : forall n,
  cf_count n = length (filter is_control_flow (nodes_of n)).
Proof.
  apply (node_mut (fun n => cf_count n = length (filter is_control_flow (nodes_of n)))
                  (fun ks => cf_count_kids ks = length (filter is_control_flow (nodes_of_kids ks)))).
  - intros t x a b ks IH. cbn [cf_count nodes_of filter].
    unfold is_control_flow at 1. cbn [node_type].
    destruct (mem_str t control_flow_types); cbn [length]; rewrite IH; reflexivity.
  - reflexivity.
  - intros f c IHc ks IHks. cbn [cf_count_kids nodes_of_kids].
    rewrite filter_app, length_app, IHc, IHks. reflexivity.
Qed.

(** C10: every entity [parse_file] returns is marked public, whatever access
    specifiers the source has. *)
Theorem parse_file_all_public : forall root content,
  match parse_file root content with
  | Some (es, _, _) => Forall (fun e => is_public e = true) es
  | None => True
  end.
Proof.
  intros root content. unfold parse_file.
  destruct (create_chunks _ content); [|exact I].
  apply extract_entities_forall; [reflexivity .. | constructor].
Qed.

(** C8: each entity comes from a node [n] of the tree, whose lines it spans.
    A function's complexity score is 1 plus the number of control-flow nodes
    of [n]'s subtree ([n] included), so at least 1; a class, struct or enum
    entity has complexity score 0. *)
Theorem complexity_score_spec : forall root e,
  In e (entities_of root) ->
  exists n, subtree root n /\ start_line e = start_row n + 1 /\ end_line e = end_row n + 1 /\
    ((etype e = "function" /\
      complexity_score e = 1 + length (filter is_control_flow (nodes_of n)) /\
      1 <= complexity_score e) \/
     (mem_str (etype e) ["class"; "struct"; "enum"] = true /\ complexity_score e = 0)).
Proof.
  intros root e Hin.
  assert (H : Forall (fun e => exists n, subtree root n /\ start_line e = start_row n + 1 /\
    end_line e = end_row n + 1 /\
    ((etype e = "function" /\
      complexity_score e = 1 + length (filter is_control_flow (nodes_of n)) /\
      1 <= complexity_score e) \/
     (mem_str (etype e) ["class"; "struct"; "enum"] = true /\ complexity_score e = 0)))
    (entities_of root)).
  { apply extract_entities_forall; [| | | constructor].
    - intros n st s Hs _. exists n. cbn. repeat split; [assumption|].
      right. destruct (String.eqb (node_type n) "class_specifier"); split; reflexivity.
    - intros n d st s Hs _. exists n. cbn. repeat split; [assumption|].
      left. unfold calculate_complexity. rewrite cf_count_nodes. repeat split; lia.
    - intros n st s Hs _. exists n. cbn. repeat split; [assumption|].
      right. split; reflexivity. }
  rewrite Forall_forall in H. apply H, Hin.
Qed.

Lemma complexity_score_spec_witness :
  In (mkEntity "function" "f" "f" (Some "f(int x)") 1 1 true 2 true) (entities_of Trees.tree_f) /\
  exists n, subtree Trees.tree_f n /\ 1 = start_row n + 1 /\ 1 = end_row n + 1 /\
    (("function" = "function" /\ 2 = 1 + length (filter is_control_flow (nodes_of n)) /\ 1 <= 2) \/
     (mem_str "function" ["class"; "struct"; "enum"] = true /\ 2 = 0)).
Proof.
  assert (Hin : In (mkEntity "function" "f" "f" (Some "f(int x)") 1 1 true 2 true)
                   (entities_of Trees.tree_f)) by (vm_compute; left; reflexivity).
  split; [exact Hin | exact (complexity_score_spec Trees.tree_f _ Hin)].
Defined.

(** The class of [class B {};] has complexity score 0. *)
Lemma complexity_score_class_zero :
  ~ (forall e, In e (entities_of Trees.tree_B) -> 1 <= complexity_score e).
Proof.
  intros H. specialize (H (mkEntity "class" "B" "B" (Some "class B") 1 1 true 0 false)).
  assert (1 <= 0); [apply H; vm_compute; left; reflexivity | lia].
Qed.

Lemma extract_relationships_shape : forall n rs,
  Forall rel_shape rs -> Forall rel_shape (extract_relationships n rs).
Proof.
  apply (node_mut (fun n => forall rs, Forall rel_shape rs -> Forall rel_shape (extract_relationships n rs))
                  (fun ks => forall rs, Forall rel_shape rs -> Forall rel_shape (relationships_kids ks rs))).
  - intros t x a b ks IH rs H. cbn [extract_relationships]. apply IH.
    destruct (String.eqb t "preproc_include").
    + destruct (find _ _); [|exact H].
      destruct (String.eqb _ ""); [exact H|].
      apply Forall_app; split; [exact H|]. constructor; [right; reflexivity | constructor].
    + destruct (String.eqb t "call_expression"); [|exact H].
      destruct (child_by_field_name _ "function"); [|exact H].
      apply Forall_app; split; [exact H|]. constructor; [right; reflexivity | constructor].
  - intros rs H; exact H.
  - intros f c IHc ks IHks rs H. apply IHks, IHc, H.
Qed.

(** Every relationship of [parse_file] is an inheritance edge or has no
    "from" entity. *)
Lemma parse_file_rel_shape : forall root content es rs cs,
  parse_file root content = Some (es, rs, cs) -> Forall rel_shape rs.
Proof.
  intros root content es rs cs H. unfold parse_file in H.
  destruct (create_chunks _ content); [|discriminate].
  injection H as _ <- _. apply extract_relationships_shape.
  refine (proj1 (extract_entities_inv_all root (fun st => Forall rel_shape (p_relationships st))
                  (fun st ns H => H) (fun st c H => H) _ _ _ root (sub_refl root))
                initial_pstate (Forall_nil _)).
  - intros n st s _ _ Hst. cbn. apply Forall_app; split; [exact Hst|].
    unfold inherit_rels. destruct (child_by_field_name n "base_clause"); [|constructor].
    apply Forall_forall. intros r Hr. apply in_map_iff in Hr as [b [<- _]]. left; reflexivity.
  - intros; exact H1.
  - intros; exact H1.
Qed.

End ParserFacts.

Module ScopeFacts.
Import Py Parser Lexical PyFacts.

Lemma pstate_set_ns : forall st ns,
  p_entities (set_ns st ns) = p_entities st /\ current_namespace (set_ns st ns) = ns /\
  current_class (set_ns st ns) = current_class st.
Proof. repeat split. Qed.

Lemma pstate_set_class : forall st c,
  p_entities (set_class st c) = p_entities st /\
  current_namespace (set_class st c) = current_namespace st /\ current_class (set_class st c) = c.
Proof. repeat split. Qed.

Lemma pstate_add_entity : forall st e,
  p_entities (add_entity st e) = p_entities st ++ [e] /\
  current_namespace (add_entity st e) = current_namespace st /\
  current_class (add_entity st e) = current_class st.
Proof. repeat split. Qed.

Lemma pstate_add_rels : forall st rs,
  p_entities (add_rels st rs) = p_entities st /\
  current_namespace (add_rels st rs) = current_namespace st /\
  current_class (add_rels st rs) = current_class st.
Proof. repeat split. Qed.

Lemma ns_names_app : forall p q, ns_names (p ++ q) = ns_names p ++ ns_names q.
Proof. induction p as [|[x|x] p IH]; intros q; cbn; [reflexivity | rewrite IH | apply IH]; reflexivity. Qed.

Lemma innermost_class_app : forall p q,
  innermost_class (p ++ q) =
  match innermost_class q with Some c => Some c | None => innermost_class p end.
Proof.
  induction p as [|[x|x] p IH]; intros q; cbn.
  - destruct (innermost_class q); reflexivity.
  - apply IH.
  - rewrite IH. destruct (innermost_class q); reflexivity.
Qed.

Lemma plain_colon_free : forall s, plain s = true -> colon_free s /\ s <> "".
Proof.
  intros s H. unfold plain in H. apply andb_true_iff in H as [H1 H2].
  apply negb_true_iff in H1, H2. split; [exact H2|].
  intros ->. discriminate.
Qed.

Lemma scopes_plain_ns : forall p, scopes_plain p = true -> Forall colon_free (ns_names p).
Proof.
  induction p as [|[x|x] p IH]; intros H; cbn in *; [constructor| |];
    apply andb_true_iff in H as [H1 H2].
  - constructor; [apply plain_colon_free, H1 | apply IH, H2].
  - apply IH, H2.
Qed.

Lemma scopes_plain_cls : forall p c, scopes_plain p = true -> innermost_class p = Some c ->
  plain c = true.
Proof.
  induction p as [|[x|x] p IH]; intros c H Hc; cbn in *; [discriminate| |];
    apply andb_true_iff in H as [H1 H2].
  - apply (IH c H2 Hc).
  - destruct (innermost_class p) as [c'|]; injection Hc as <-; [apply (IH c' H2 eq_refl) | exact H1].
Qed.

Lemma build_qualified_name_scoped : forall p st s, state_at p st -> scopes_plain p = true ->
  build_qualified_name st s = scoped_name p s.
Proof.
  intros p st s [Hns Hc] Hp. unfold build_qualified_name, scoped_name. rewrite Hns.
  remember (innermost_class p) as ic eqn:Eic. remember (current_class st) as cc.
  destruct Hc as [|c qn Hl]; [reflexivity|].
  destruct (plain_colon_free c (scopes_plain_cls p c Hp (eq_sym Eic))) as [_ Hne].
  destruct (String.eqb qn "") eqn:E.
  - apply String.eqb_eq in E. subst qn. cbn in Hl. congruence.
  - rewrite Hl. reflexivity.
Qed.

Lemma last_seg_qualified_name : forall p st s, state_at p st -> scopes_plain p = true ->
  plain s = true -> last_seg (build_qualified_name st s) = s.
Proof.
  intros p st s Hst Hp Hs. rewrite (build_qualified_name_scoped p st s Hst Hp).
  unfold scoped_name. rewrite app_assoc. apply last_seg_join.
  apply Forall_app; split; [apply Forall_app; split|].
  - apply scopes_plain_ns, Hp.
  - destruct (innermost_class p) as [c|] eqn:E; [|constructor].
    constructor; [apply plain_colon_free, (scopes_plain_cls p c Hp E) | constructor].
  - constructor; [apply plain_colon_free, Hs | constructor].
Qed.

Lemma plain_names_cons : forall ps l,
  plain_names (ps :: l) = scopes_plain (fst ps) && plain (snd ps) && plain_names l.
Proof. reflexivity. Qed.

Lemma plain_names_app : forall l1 l2,
  plain_names (l1 ++ l2) = plain_names l1 && plain_names l2.
Proof. intros. apply forallb_app. Qed.

Lemma names_after_state : forall f l p st, names_after f l st -> state_at p st -> state_at p (f st).
Proof. intros f l p st [_ [Hn Hc]] [Hns Hcc]. split; congruence. Qed.

Lemma names_after_nil : forall st, names_after (fun st => st) [] st.
Proof. intros st. split; [rewrite app_nil_r|split]; reflexivity. Qed.

(** The traversal against the lexical visitor, node by node. *)
Lemma extract_entities_names : forall n,
  (forall p st, state_at p st -> plain_names (lexical_entities p n) = true ->
     names_after (extract_entities n) (lexical_entities p n) st) /\
  (forall p st, state_at p st -> plain_names (lexical_kids p (kid_list_of n)) = true ->
     names_after (walk (kid_list_of n)) (lexical_kids p (kid_list_of n)) st).
Proof.
  apply (node_mut
    (fun n =>
      (forall p st, state_at p st -> plain_names (lexical_entities p n) = true ->
         names_after (extract_entities n) (lexical_entities p n) st) /\
      (forall p st, state_at p st -> plain_names (lexical_kids p (kid_list_of n)) = true ->
         names_after (walk (kid_list_of n)) (lexical_kids p (kid_list_of n)) st))
    (fun ks => forall p st, state_at p st ->
      (plain_names (lexical_kids p ks) = true -> names_after (walk ks) (lexical_kids p ks) st) /\
      (plain_names (lexical_body p ks) = true ->
         names_after (walk_body ks) (lexical_body p ks) st))).
  - intros t x a b ks IH.
    split; [|intros p st Hs Hpl; exact (proj1 (IH p st Hs) Hpl)].
    intros p st Hs Hpl. unfold names_after.
    cbn [extract_entities lexical_entities] in *.
    destruct (String.eqb t "namespace_definition").
    { destruct (child_by_field_name (Node t x a b ks) "name") as [nm|];
        [|apply names_after_nil].
      set (st1 := set_ns st (current_namespace st ++ [node_text nm])).
      assert (Hs1 : state_at (p ++ [ScNs (node_text nm)]) st1).
      { destruct Hs as [Hns Hc]. destruct (pstate_set_ns st (current_namespace st ++ [node_text nm]))
          as [_ [E1 E2]].
        split; fold st1 in E1, E2.
        - rewrite E1, ns_names_app, Hns. reflexivity.
        - rewrite E2, innermost_class_app. exact Hc. }
      destruct (proj2 (IH _ st1 Hs1) Hpl) as [Hn [Hns Hc]].
      destruct (pstate_set_ns (walk_body ks st1) (removelast (current_namespace (walk_body ks st1))))
        as [E1 [E2 E3]].
      destruct (pstate_set_ns st (current_namespace st ++ [node_text nm])) as [F1 [F2 F3]].
      fold st1 in F1, F2, F3.
      rewrite E1, E2, E3, Hn, Hns, Hc, F1, F2, F3, removelast_last.
      split; [|split]; reflexivity. }
    destruct (mem_str t ["class_specifier"; "struct_specifier"]).
    { destruct (child_by_field_name (Node t x a b ks) "name") as [nm|];
        [|apply names_after_nil].
      rewrite plain_names_cons in Hpl. cbn [fst snd] in Hpl.
      apply andb_true_iff in Hpl as [Hpl Hrest]. apply andb_true_iff in Hpl as [Hp Hnm].
      set (qn := build_qualified_name st (node_text nm)).
      set (st1 := add_entity (add_rels st (inherit_rels (Node t x a b ks) qn (node_text nm)))
                             (class_entity (Node t x a b ks) st (node_text nm))).
      destruct (pstate_add_rels st (inherit_rels (Node t x a b ks) qn (node_text nm)))
        as [R1 [R2 R3]].
      destruct (pstate_add_entity (add_rels st (inherit_rels (Node t x a b ks) qn (node_text nm)))
                  (class_entity (Node t x a b ks) st (node_text nm))) as [A1 [A2 A3]].
      fold st1 in A1, A2, A3. rewrite R1 in A1. rewrite R2 in A2. rewrite R3 in A3.
      destruct (pstate_set_class st1 (Some qn)) as [C1 [C2 C3]].
      assert (Hs1 : state_at (p ++ [ScCls (node_text nm)]) (set_class st1 (Some qn))).
      { destruct Hs as [Hns Hc]. split.
        - rewrite C2, A2, ns_names_app, Hns. cbn. rewrite app_nil_r. reflexivity.
        - rewrite C3, innermost_class_app. cbn. constructor.
          apply (last_seg_qualified_name p st); [split|..]; assumption. }
      destruct (proj2 (IH _ _ Hs1) Hrest) as [Hn [Hns Hc]].
      destruct (pstate_set_class (walk_body ks (set_class st1 (Some qn))) (current_class st1))
        as [E1 [E2 E3]].
      rewrite E1, E2, E3, Hn, Hns, C1, C2, A1, A2, A3, map_app.
      split; [|split; reflexivity].
      rewrite <- app_assoc. cbn [map app fst snd qualified_name class_entity].
      rewrite (build_qualified_name_scoped p st _ Hs Hp). reflexivity. }
    destruct (mem_str t ["function_definition"; "function_declarator"]).
    { destruct (if String.eqb t "function_declarator" then Some (Node t x a b ks)
                else child_by_field_name (Node t x a b ks) "declarator") as [d|];
        [|apply names_after_nil].
      destruct (get_function_name_node d) as [nm|]; [|apply names_after_nil].
      rewrite plain_names_cons in Hpl. cbn [fst snd] in Hpl.
      apply andb_true_iff in Hpl as [Hpl _]. apply andb_true_iff in Hpl as [Hp _].
      destruct (pstate_add_entity st (function_entity (Node t x a b ks) d st (node_text nm)))
        as [A1 [A2 A3]].
      rewrite A1, A2, A3, map_app. split; [|split; reflexivity].
      cbn [map app fst snd qualified_name function_entity enum_entity].
      rewrite (build_qualified_name_scoped p st _ Hs Hp). reflexivity. }
    destruct (String.eqb t "enum_specifier").
    { destruct (child_by_field_name (Node t x a b ks) "name") as [nm|];
        [|apply names_after_nil].
      rewrite plain_names_cons in Hpl. cbn [fst snd] in Hpl.
      apply andb_true_iff in Hpl as [Hpl _]. apply andb_true_iff in Hpl as [Hp _].
      destruct (pstate_add_entity st (enum_entity (Node t x a b ks) st (node_text nm)))
        as [A1 [A2 A3]].
      rewrite A1, A2, A3, map_app. split; [|split; reflexivity].
      cbn [map app fst snd qualified_name function_entity enum_entity].
      rewrite (build_qualified_name_scoped p st _ Hs Hp). reflexivity. }
    exact (proj1 (IH p st Hs) Hpl).
  - intros p st _. split; intros _; apply names_after_nil.
  - intros f c IHc ks IHks p st Hs. split.
    + intros Hpl. cbn [lexical_kids] in *. rewrite plain_names_app in Hpl.
      apply andb_true_iff in Hpl as [H1 H2].
      pose proof (proj1 IHc p st Hs H1) as Hc1.
      destruct (proj1 (IHks p _ (names_after_state _ _ p st Hc1 Hs)) H2) as [Hn [Hns Hcc]].
      destruct Hc1 as [Hn1 [Hns1 Hcc1]].
      unfold names_after. cbn [walk].
      rewrite Hn, Hns, Hcc, Hn1, Hns1, Hcc1, map_app, app_assoc.
      split; [|split]; reflexivity.
    + destruct f as [f|]; destruct c as [t x a b bk]; cbn [walk_body lexical_body].
      * destruct (String.eqb f "body").
        -- exact (proj2 IHc p st Hs).
        -- exact (proj2 (IHks p st Hs)).
      * exact (proj2 (IHks p st Hs)).
Qed.

Lemma flat_path_scopes : forall p, flat_path p = true ->
  ns_names p ++ match innermost_class p with Some c => [c] | None => [] end = map scope_name p.
Proof.
  induction p as [|[x|x] p IH]; intros H; [reflexivity| |].
  - cbn in *. rewrite IH; [reflexivity|]. destruct p as [|[]]; assumption.
  - destruct p; [reflexivity | discriminate].
Qed.

(** C2: a file's entities carry, in order, the qualified names built from the
    lexical nesting as the traversal sees it: the enclosing namespaces in
    order, then the innermost enclosing class or struct alone, then the
    simple name, when every name involved is a plain identifier. Where the
    class nesting is at most one level deep (namespaces, then at most one
    class), this is the full lexical path. The names are a function of the
    syntax tree, since [parse_file] starts from a fresh state. *)
Theorem qualified_names_scoped : forall root,
  plain_names (lexical_entities [] root) = true ->
  map qualified_name (entities_of root) =
    map (fun ps => scoped_name (fst ps) (snd ps)) (lexical_entities [] root) /\
  (forall ps, In ps (lexical_entities [] root) -> flat_path (fst ps) = true ->
     scoped_name (fst ps) (snd ps) = lexical_path_name (fst ps) (snd ps)).
Proof.
  intros root Hpl. split.
  - destruct (proj1 (extract_entities_names root) [] initial_pstate
                    (conj eq_refl ca_none) Hpl) as [Hn _].
    exact Hn.
  - intros [p x] _ Hf. cbn [fst snd] in *. unfold scoped_name, lexical_path_name.
    rewrite app_assoc, (flat_path_scopes p Hf). reflexivity.
Qed.

Lemma qualified_names_scoped_witness :
  plain_names (lexical_entities [] Trees.tree_BCD) = true /\
  map qualified_name (entities_of Trees.tree_BCD) =
    map (fun ps => scoped_name (fst ps) (snd ps)) (lexical_entities [] Trees.tree_BCD) /\
  (forall ps, In ps (lexical_entities [] Trees.tree_BCD) -> flat_path (fst ps) = true ->
     scoped_name (fst ps) (snd ps) = lexical_path_name (fst ps) (snd ps)).
Proof.
  assert (H : plain_names (lexical_entities [] Trees.tree_BCD) = true) by (vm_compute; reflexivity).
  split; [exact H | exact (qualified_names_scoped Trees.tree_BCD H)].
Defined.

(** In [class B { class C { class D {}; }; };] the traversal names D
    [C::D], while its lexical path is [B::C::D]. *)
Lemma qualified_name_nested_class :
  map qualified_name (entities_of Trees.tree_BCD) = ["B"; "B::C"; "C::D"] /\
  map (fun ps => lexical_path_name (fst ps) (snd ps)) (lexical_entities [] Trees.tree_BCD) =
    ["B"; "B::C"; "B::C::D"].
Proof. split; vm_compute; reflexivity. Qed.

End ScopeFacts.

Module IndexerFacts.
Import Py Parser Indexer.

Lemma mem_nat_In : forall x l, mem_nat x l = true <-> In x l.
Proof.
  intros x l. unfold mem_nat. rewrite existsb_exists. split.
  - intros [y [Hy E]]. apply Nat.eqb_eq in E. subst. exact Hy.
  - intros H. exists x. split; [exact H | apply Nat.eqb_refl].
Qed.

Lemma ri_ok_iff : forall d, ri_ok d = true <->
  forall r, In r (rels d) -> In (sr_from r) (ent_ids (ents d)) /\ In (sr_to r) (ent_ids (ents d)).
Proof.
  intros d. unfold ri_ok. rewrite forallb_forall. split; intros H r Hr; specialize (H r Hr).
  - apply andb_true_iff in H as [H1 H2]. split; apply mem_nat_In; assumption.
  - destruct H as [H1 H2]. apply andb_true_iff; split; apply mem_nat_In; assumption.
Qed.

Lemma lookup_empty_key : forall {A} (m : list (string * A)), keys_nonempty m = true -> lookup "" m = None.
Proof.
  intros A m. induction m as [|[k v] m IH]; intros H; [reflexivity|].
  cbn in H. apply andb_true_iff in H as [H1 H2]. apply negb_true_iff in H1.
  unfold lookup in *. cbn. rewrite H1. apply IH, H2.
Qed.

Lemma not_removed_in : forall (all kept : list nat) i, In i all ->
  mem_nat i (filter (fun j => negb (mem_nat j kept)) all) = false -> In i kept.
Proof.
  intros all kept i Hi Hm. destruct (mem_nat i kept) eqn:E; [apply mem_nat_In, E|].
  assert (Hin : In i (filter (fun j => negb (mem_nat j kept)) all))
    by (apply filter_In; split; [exact Hi | rewrite E; reflexivity]).
  apply mem_nat_In in Hin. congruence.
Qed.

Section Keeps.

Variable Inv : World -> Prop.

Lemma keeps_ret : forall {A} (Q : A -> Prop) a, Q a -> keeps Inv Q (ret a).
Proof. intros A Q a Ha w Hw. split; assumption. Qed.

Lemma keeps_bind : forall {A B} (Q : A -> Prop) (Q' : B -> Prop) m k,
  keeps Inv Q m -> (forall a, Q a -> keeps Inv Q' (k a)) -> keeps Inv Q' (bind m k).
Proof.
  intros A B Q Q' m k Hm Hk w Hw. unfold bind.
  destruct (Hm w Hw) as [Hw' Hq]. destruct (m w) as [[a|e] w']; cbn in *.
  - apply (Hk a Hq w' Hw').
  - split; [exact Hw' | exact I].
Qed.

Lemma keeps_weaken : forall {A} (Q Q' : A -> Prop) m,
  keeps Inv Q m -> (forall a, Q a -> Q' a) -> keeps Inv Q' m.
Proof.
  intros A Q Q' m Hm HQ w Hw. destruct (Hm w Hw) as [H1 H2]. split; [exact H1|].
  destruct (fst (m w)); [apply HQ|]; assumption.
Qed.

Lemma keeps_mapM_ : forall {A} (f : A -> M unit) l,
  (forall x, In x l -> keeps Inv (fun _ => True) (f x)) -> keeps Inv (fun _ => True) (mapM_ f l).
Proof.
  intros A f l. induction l as [|x l IH]; intros H; cbn [mapM_].
  - apply keeps_ret; exact I.
  - apply (keeps_bind (fun _ => True)); [apply H; left; reflexivity|].
    intros _ _. apply IH. intros y Hy. apply H. right; exact Hy.
Qed.

End Keeps.

Lemma frame_ret : forall {A} (a : A), frame (ret a).
Proof. intros A a w. repeat split. Qed.

Lemma frame_bind : forall {A B} (m : M A) (k : A -> M B),
  frame m -> (forall a, frame (k a)) -> frame (bind m k).
Proof.
  intros A B m k Hm Hk w. unfold bind. destruct (Hm w) as [E1 [E2 E3]].
  destruct (m w) as [[a|e] w']; cbn in *; [|repeat split; assumption].
  destruct (Hk a w') as [F1 [F2 F3]]. repeat split; congruence.
Qed.

Lemma frame_mapM_ : forall {A} (f : A -> M unit) l, (forall x, frame (f x)) -> frame (mapM_ f l).
Proof.
  intros A f l Hf. induction l as [|x l IH]; cbn [mapM_]; [apply frame_ret|].
  apply frame_bind; [apply Hf | intros; exact IH].
Qed.

Lemma frame_keeps : forall {A} R0 (m : M A), frame m -> keeps (graph_inv R0) (fun _ => True) m.
Proof.
  intros A R0 m Hm w [[Hri Hnew] Hk]. destruct (Hm w) as [E1 [E2 E3]].
  unfold graph_inv, ri_ok, rels_new_inherits in *.
  rewrite E1, E2, E3. split; [split; [split|]; assumption|].
  destruct (fst (m w)); exact I.
Qed.

Lemma keeps_transaction : forall {A} R0 (Q : A -> Prop) (m : M A),
  keeps (graph_inv R0) Q m -> keeps (graph_inv R0) Q (transaction m).
Proof.
  intros A R0 Q m Hm w Hw. unfold transaction.
  destruct (Hm w Hw) as [Hw' Hq]. destruct (m w) as [[a|e] w']; cbn in *.
  - split; assumption.
  - split; [split; [exact (proj1 Hw) | exact (proj2 Hw')] | exact I].
Qed.

Lemma delete_keeps : forall R0 fid, keeps (graph_inv R0) (fun _ => True) (delete_file_entities fid).
Proof.
  intros R0 fid w [[Hri Hnew] Hk]. unfold delete_file_entities. cbn [fst snd db cache].
  split; [|exact I]. split; [split|exact Hk].
  - apply ri_ok_iff. intros r Hr. cbn [rels ents] in *.
    apply filter_In in Hr as [Hr Hf]. apply andb_true_iff in Hf as [Hf Ht].
    apply negb_true_iff in Hf, Ht. rewrite ri_ok_iff in Hri. destruct (Hri r Hr) as [Hi Hj].
    split; eapply not_removed_in; eassumption.
  - intros r Hr. cbn [rels] in Hr. apply filter_In in Hr as [Hr _]. apply Hnew, Hr.
Qed.

Lemma insert_entity_keeps : forall R0 fid e, String.eqb (qualified_name e) "" = false ->
  keeps (graph_inv R0) (fun _ => True) (insert_entity fid e).
Proof.
  intros R0 fid e He w [[Hri Hnew] Hk]. unfold insert_entity. cbn [fst snd db cache].
  split; [|exact I]. split; [split|].
  - apply ri_ok_iff. rewrite ri_ok_iff in Hri. intros r Hr. cbn [db rels ents] in *.
    destruct (Hri r Hr) as [H1 H2].
    unfold ent_ids in *. rewrite map_app. split; apply in_or_app; left; assumption.
  - exact Hnew.
  - change (negb (String.eqb (qualified_name e) "") && keys_nonempty (cache w) = true).
    rewrite He, Hk. reflexivity.
Qed.

Lemma insert_entities_keeps : forall R0 fid es emap,
  names_nonempty es = true -> keys_nonempty emap = true ->
  keeps (graph_inv R0) (fun m => keys_nonempty m = true) (insert_entities fid es emap).
Proof.
  intros R0 fid es. induction es as [|e es IH]; intros emap Hes Hm; cbn [insert_entities].
  - apply keeps_ret, Hm.
  - cbn in Hes. apply andb_true_iff in Hes as [He Hes]. apply negb_true_iff in He.
    apply (keeps_bind _ (fun _ => True)); [apply insert_entity_keeps, He|].
    intros id _. apply IH; [exact Hes|].
    change (negb (String.eqb (qualified_name e) "") && keys_nonempty emap = true).
    rewrite He, Hm. reflexivity.
Qed.

Lemma update_parent_keeps : forall R0 pid id,
  keeps (graph_inv R0) (fun _ => True) (update_parent pid id).
Proof.
  intros R0 pid id w Hw. unfold update_parent.
  destruct (mem_nat pid (ent_ids (ents (db w)))); cbn [fst snd]; [|split; [exact Hw | exact I]].
  destruct Hw as [[Hri Hnew] Hk]. split; [|exact I]. split; [split|exact Hk].
  - unfold ri_ok in *. cbn [db set_ents rels ents].
    replace (ent_ids (map _ (ents (db w)))) with (ent_ids (ents (db w))); [exact Hri|].
    unfold ent_ids. rewrite map_map. apply map_ext. intros e.
    destruct (se_id e =? id); reflexivity.
  - exact Hnew.
Qed.

Lemma resolve_parent_keeps : forall R0 emap e,
  keeps (graph_inv R0) (fun _ => True) (resolve_parent emap e).
Proof.
  intros R0 emap e. unfold resolve_parent.
  destruct (contains_dc (qualified_name e)); [|apply keeps_ret; exact I].
  destruct (rsplit_dc (qualified_name e)) as [[pn _]|]; [|apply keeps_ret; exact I].
  destruct (lookup pn emap), (lookup (qualified_name e) emap);
    solve [apply update_parent_keeps | apply keeps_ret; exact I].
Qed.

Lemma insert_rel_row_keeps : forall R0 f t rel, relationship_type rel = "inherits" ->
  keeps (graph_inv R0) (fun _ => True) (insert_rel_row f t rel).
Proof.
  intros R0 f t rel Ht w Hw. unfold insert_rel_row.
  destruct (mem_nat f (ent_ids (ents (db w)))) eqn:Ef; cbn [andb];
    [destruct (mem_nat t (ent_ids (ents (db w)))) eqn:Et|]; cbn [fst snd];
    try (split; [exact Hw | exact I]).
  destruct Hw as [[Hri Hnew] Hk]. split; [|exact I]. split; [split|exact Hk].
  - rewrite ri_ok_iff in *. cbn [db set_rels rels ents]. intros r Hr.
    apply in_app_or in Hr as [Hr|[<-|[]]]; [apply Hri, Hr|].
    cbn. split; apply mem_nat_In; assumption.
  - intros r Hr. cbn [db set_rels rels] in Hr.
    apply in_app_or in Hr as [Hr|[<-|[]]]; [apply Hnew, Hr|]. right. exact Ht.
Qed.

(** The lookup of the "to" endpoint only reads. *)
Lemma to_lookup_reads : forall emap (c : list (string * nat)) s w,
  snd ((match lookup s emap with
        | Some i => ret (Some i)
        | None => match lookup s c with
                  | Some i => ret (Some i)
                  | None => fetch_by_simple_name (last_seg s)
                  end
        end) w) = w.
Proof.
  intros emap c s w. destruct (lookup s emap); [reflexivity|].
  destruct (lookup s c); reflexivity.
Qed.

Lemma insert_relationship_keeps : forall R0 emap rel,
  keys_nonempty emap = true -> rel_shape rel ->
  keeps (graph_inv R0) (fun _ => True) (insert_relationship emap rel).
Proof.
  intros R0 emap rel Hm Hshape w Hw. unfold insert_relationship.
  destruct (String.eqb (relationship_type rel) "includes") eqn:Einc;
    [split; [exact Hw | exact I]|].
  unfold bind. pose proof (to_lookup_reads emap (cache w) (to_entity rel) w) as Hr.
  destruct (_ w) as [[to_id|e] w1] eqn:Eto; cbn [snd] in Hr; subst w1;
    [|split; [exact Hw | exact I]].
  destruct Hshape as [Hinh|Hfrom].
  - destruct (match lookup (from_entity rel) emap with
              | Some i => Some i | None => lookup (from_entity rel) (cache w) end) as [f|];
      [|split; [exact Hw | exact I]].
    destruct to_id as [t|]; [|split; [exact Hw | exact I]].
    destruct (negb (f =? 0) && negb (t =? 0));
      [apply insert_rel_row_keeps; assumption | split; [exact Hw | exact I]].
  - rewrite Hfrom, (lookup_empty_key emap Hm), (lookup_empty_key (cache w) (proj2 Hw)).
    split; [exact Hw | exact I].
Qed.

Lemma embed_frame : forall encode s, frame (embed encode s).
Proof. intros encode s w. unfold embed. destruct (encode s); repeat split. Qed.

Lemma insert_chunk_row_frame : forall c, frame (insert_chunk_row c).
Proof.
  intros c w. unfold insert_chunk_row.
  destruct (match sc_entity c with Some i => _ | None => true end); repeat split.
Qed.

Lemma insert_chunk_frame : forall encode emap fid c, frame (insert_chunk encode emap fid c).
Proof.
  intros. unfold insert_chunk. apply frame_bind; [apply embed_frame|].
  intros. apply insert_chunk_row_frame.
Qed.

Lemma mark_indexed_frame : forall fid, frame (mark_indexed fid).
Proof. intros fid w. repeat split. Qed.

Lemma simple_file_indexing_frame : forall encode fid content,
  frame (simple_file_indexing encode fid content).
Proof.
  intros. unfold simple_file_indexing. apply frame_mapM_. intros i. unfold fallback_step.
  destruct (_ <? 50); [apply frame_ret|].
  apply frame_bind; [apply embed_frame | intros; apply insert_chunk_row_frame].
Qed.

(** C1: indexing a file keeps every relationship row between two existing
    entity rows, and the only rows it adds are inheritance edges: the call
    edges, which have no "from" entity, and the include edges are all
    dropped. The hypotheses are that no cached and no parsed qualified name
    is empty; the conclusion gives the first back for the next file. *)
Theorem index_cpp_file_graph_sound : forall encode tree_sitter fid content w,
  ri_ok (db w) = true -> keys_nonempty (cache w) = true ->
  match parse_cpp_file tree_sitter content with
  | Some (es, _, _) => names_nonempty es = true
  | None => True
  end ->
  ri_ok (db (snd (index_cpp_file encode tree_sitter fid content w))) = true /\
  keys_nonempty (cache (snd (index_cpp_file encode tree_sitter fid content w))) = true /\
  (forall r, In r (rels (db (snd (index_cpp_file encode tree_sitter fid content w)))) ->
     In r (rels (db w)) \/ sr_type r = "inherits").
Proof.
  intros encode ts fid content w Hri Hk Hp.
  assert (H : keeps (graph_inv (rels (db w))) (fun _ => True)
                    (index_cpp_file encode ts fid content)).
  { unfold index_cpp_file, index_file.
    destruct (parse_cpp_file ts content) as [[[es rs] cs]|] eqn:E;
      [|apply frame_keeps, simple_file_indexing_frame].
    pose proof (ParserFacts.parse_file_rel_shape _ _ _ _ _ E) as Hshape.
    apply keeps_transaction.
    apply (keeps_bind _ (fun _ => True)); [apply delete_keeps|]. intros _ _.
    apply (keeps_bind _ (fun m => keys_nonempty m = true));
      [apply insert_entities_keeps; [exact Hp | reflexivity]|]. intros emap Hm.
    apply (keeps_bind _ (fun _ => True));
      [apply keeps_mapM_; intros; apply resolve_parent_keeps|]. intros _ _.
    apply (keeps_bind _ (fun _ => True)).
    { apply keeps_mapM_. intros rel Hin. apply insert_relationship_keeps; [exact Hm|].
      rewrite Forall_forall in Hshape. apply Hshape, Hin. }
    intros _ _.
    apply (keeps_bind _ (fun _ => True));
      [apply frame_keeps, frame_mapM_; intros; apply insert_chunk_frame|]. intros _ _.
    apply frame_keeps, mark_indexed_frame. }
  destruct (H w) as [[[H1 H2] H3] _]; [split; [split; [exact Hri | intros r Hr; left; exact Hr] | exact Hk]|].
  split; [exact H1 | split; [exact H3 | exact H2]].
Qed.

Lemma index_cpp_file_graph_sound_witness :
  ri_ok (db (snd (index_cpp_file Scenarios.enc (fun _ => Trees.tree_call) 1 Trees.src_call
                                 Scenarios.world_f))) = true /\
  keys_nonempty (cache (snd (index_cpp_file Scenarios.enc (fun _ => Trees.tree_call) 1
                                 Trees.src_call Scenarios.world_f))) = true /\
  (forall r, In r (rels (db (snd (index_cpp_file Scenarios.enc (fun _ => Trees.tree_call) 1
                                   Trees.src_call Scenarios.world_f)))) ->
     In r (rels (db Scenarios.world_f)) \/ sr_type r = "inherits").
Proof.
  apply index_cpp_file_graph_sound; vm_compute; reflexivity.
Defined.

(** The call [f()] of [g] is parsed, and dropped by the indexer although [f]
    is in the store. *)
Lemma call_edge_dropped :
  map relationship_type (match parse_file Trees.tree_call Trees.src_call with
                         | Some (_, rs, _) => rs | None => [] end) = ["calls"] /\
  rels (db (snd (index_cpp_file Scenarios.enc (fun _ => Trees.tree_call) 1 Trees.src_call
                                Scenarios.world_f))) = [].
Proof. split; vm_compute; reflexivity. Qed.

(** After a comment of 200 [é], [_get_node_text] gives every node of
    [void f(){ g(); }] the text [""]: [f] is stored under the qualified name
    [""] with id 2 and put in the cache under [""], the call [g()] is parsed
    as an edge from [""] to [""], both endpoints resolve to id 2, and a
    "calls" row is stored. *)
Lemma call_edge_stored_empty_names :
  parse_file Trees.tree_eacute Trees.src_eacute =
    Some ([mkEntity "function" "" "" (Some "") 2 2 true 1 true],
          [mkRel "" "" "calls" "" 2],
          [mkChunk (Some "") "implementation" "void f(){ g(); }" 2 2 []]) /\
  cache (snd (index_cpp_file Scenarios.enc (fun _ => Trees.tree_eacute) 1 Trees.src_eacute
                             Scenarios.world_old)) = [("", 2)] /\
  map se_qname (ents (db (snd (index_cpp_file Scenarios.enc (fun _ => Trees.tree_eacute) 1
                                Trees.src_eacute Scenarios.world_old)))) = [""] /\
  rels (db (snd (index_cpp_file Scenarios.enc (fun _ => Trees.tree_eacute) 1 Trees.src_eacute
                                Scenarios.world_old))) = [mkSRel 2 2 "calls" "" 2].
Proof. repeat split; vm_compute; reflexivity. Qed.


Lemma filter_drop_all : forall {A} (f : A -> bool) l, (forall x, In x l -> f x = false) -> filter f l = [].
Proof.
  intros A f l. induction l as [|x l IH]; intros H; [reflexivity|].
  cbn. rewrite (H x (or_introl eq_refl)). apply IH. intros y Hy. apply H. right; exact Hy.
Qed.





(** [content90] has two fallback windows, at lines 1-100 and 81-90. *)
Lemma content90_windows :
  map (fun c => (sc_start c, sc_end c)) (fallback_rows Scenarios.enc 1 Scenarios.content90) =
    [(1, 90); (81, 90)].
Proof. vm_compute. reflexivity. Qed.



(** On the parse-failure path nothing is deleted: the entity [old] of file 1
    and its chunk survive next to the new fallback chunk; and an embedding
    error in the second window leaves the first window's chunk written. *)
Lemma fallback_not_atomic :
  ents (db (snd (index_file Scenarios.enc 1 Scenarios.long_line None Scenarios.world_old))) =
    ents (db Scenarios.world_old) /\
  map sc_entity (chunks (db (snd (index_file Scenarios.enc 1 Scenarios.long_line None
                                              Scenarios.world_old)))) = [Some 1; None] /\
  fst (index_file Scenarios.enc_fail_short 1 Scenarios.content90 None Scenarios.world_old) =
    Err EmbeddingError /\
  map sc_start (chunks (db (snd (index_file Scenarios.enc_fail_short 1 Scenarios.content90 None
                                             Scenarios.world_old)))) = [1; 1].
Proof. vm_compute. repeat split. Qed.

(** Indexing the same content twice through the fallback writes its window
    twice: one fallback chunk after the first run, two after the second. *)
Lemma fallback_reindex_duplicates :
  map sc_entity (chunks (db (snd (index_file Scenarios.enc 1 Scenarios.long_line None
                                              Scenarios.world_old)))) = [Some 1; None] /\
  map sc_entity (chunks (db (snd (index_file Scenarios.enc 1 Scenarios.long_line None
     (snd (index_file Scenarios.enc 1 Scenarios.long_line None Scenarios.world_old)))))) =
    [Some 1; None; None].
Proof. vm_compute. split; reflexivity. Qed.

End IndexerFacts.

Module ServerFacts.
Import Py Parser Indexer Server.

Lemma index_one_path : forall ts encode sha file w,
  fst (index_one ts encode sha file w) = Ok (fst file).
Proof.
  intros ts encode sha [path raw] w. unfold index_one, bind, upsert_file, catch_file, ret.
  destruct (find_file path (files (db w)));
    match goal with
    | |- context [match index_cpp_file ?e ?t ?f ?c ?w1 with _ => _ end] =>
        destruct (index_cpp_file e t f c w1) as [[] ?]
    end; reflexivity.
Qed.

Lemma batch_index_files_paths : forall ts encode sha fs w,
  fst (batch_index_files ts encode sha fs w) = Ok (map fst fs).
Proof.
  intros ts encode sha fs. unfold batch_index_files.
  induction fs as [|f fs IH]; intros w; [reflexivity|].
  cbn [mapM]. unfold bind at 1. pose proof (index_one_path ts encode sha f w) as H.
  destruct (index_one ts encode sha f w) as [[y|e] w1]; cbn in H; [|discriminate H].
  injection H as ->. unfold bind. specialize (IH w1).
  destruct (mapM (index_one ts encode sha) fs w1) as [[ys|e] w2]; cbn in IH; [|discriminate IH].
  injection IH as ->. reflexivity.
Qed.

Lemma is_changed_false : forall sha rows path raw,
  is_changed sha rows (path, raw) = false <->
  exists r, find_file path rows = Some r /\ f_hash r = sha raw.
Proof.
  intros sha rows path raw. unfold is_changed. cbn [fst snd].
  destruct (find_file path rows) as [r|]; split.
  - intros H. apply negb_false_iff, String.eqb_eq in H. exists r. split; [reflexivity | exact H].
  - intros [r' [E H]]. injection E as <-. apply negb_false_iff, String.eqb_eq, H.
  - discriminate.
  - intros [r' [E _]]. discriminate E.
Qed.

(** C6: the periodic check hands to the indexer exactly the files found that
    have no [files] row or whose stored hash differs from the SHA-256 of
    their bytes, and skips the others; initial indexing (at startup, on a
    manual re-index and on a change of the monitored directories) hands
    every file found to the indexer, whatever its stored hash. *)
Theorem change_detection : forall ts encode sha found w,
  fst (check_for_changes ts encode sha found w) =
    Ok (map fst (filter (is_changed sha (files (db w))) found)) /\
  (forall path raw, is_changed sha (files (db w)) (path, raw) = false <->
     exists r, find_file path (files (db w)) = Some r /\ f_hash r = sha raw) /\
  fst (initial_indexing ts encode sha found w) = Ok (map fst found).
Proof.
  intros ts encode sha found w. split; [|split].
  - unfold check_for_changes. destruct (filter _ found) as [|f fs] eqn:E; [reflexivity|].
    apply batch_index_files_paths.
  - intros path raw. apply is_changed_false.
  - apply batch_index_files_paths.
Qed.

(** A file whose stored hash is that of its bytes is indexed again by
    initial indexing. *)
Lemma initial_indexing_ignores_hash :
  is_changed Scenarios.sha_id (files (db (Scenarios.world_indexed Scenarios.raw_lf)))
             ("a.cpp", Scenarios.raw_lf) = false /\
  fst (initial_indexing Scenarios.ts_empty Scenarios.enc Scenarios.sha_id
         [("a.cpp", Scenarios.raw_lf)] (Scenarios.world_indexed Scenarios.raw_lf)) = Ok ["a.cpp"].
Proof. split; vm_compute; reflexivity. Qed.

(** The stored hash is taken of the text read with universal newlines, the
    checked one of the raw bytes: a file with "\r\n" line ends counts as
    changed at every check although it did not change. *)
Lemma crlf_always_changed :
  is_changed Scenarios.sha_id (files (db (Scenarios.world_indexed Scenarios.raw_crlf)))
             ("a.cpp", Scenarios.raw_crlf) = true.
Proof. vm_compute. reflexivity. Qed.

(** Symbol lookup of [foo] in [db_foo] takes the first stored candidate
    [foobar] as primary; the spec's ranking takes [x::foo]. *)
Lemma find_symbol_unranked :
  primary_of (find_symbol Scenarios.collate_c Scenarios.db_foo "foo" true 20%Z) = Some "foobar" /\
  spec_primary Scenarios.db_foo "foo" = Some "x::foo".
Proof. split; vm_compute; reflexivity. Qed.

End ServerFacts.

Module ExampleFacts.
Import Py Parser Indexer.

(** C7: the parser creates no namespace entity: every entity is a class,
    struct, function or enum. For [namespace A { class B { void c() {} } }]
    the class gets the qualified name [A::B] and no entity is named [A];
    after indexing, the stored row of [A::B] has no parent, since [A] is not
    in the file's map. *)
Theorem namespace_example :
  (forall root e, In e (entities_of root) ->
     mem_str (etype e) ["class"; "struct"; "function"; "enum"] = true) /\
  In "A::B" (map qualified_name (entities_of Trees.tree_ABc)) /\
  ~ In "A" (map qualified_name (entities_of Trees.tree_ABc)) /\
  option_map se_parent
    (find (fun e => String.eqb (se_qname e) "A::B")
          (ents (db (snd (index_file Scenarios.enc 1 Trees.src_ABc
                            (parse_file Trees.tree_ABc Trees.src_ABc) Scenarios.world_old))))) =
    Some None.
Proof.
  split; [|vm_compute; repeat split; [left; reflexivity | intros [H|[]]; discriminate H]].
  intros root e Hin.
  assert (H : Forall (fun e => mem_str (etype e) ["class"; "struct"; "function"; "enum"] = true)
                     (entities_of root)).
  { apply ParserFacts.extract_entities_forall; [| | | constructor]; intros; cbn; [|reflexivity..].
    destruct (String.eqb (node_type n) "class_specifier"); reflexivity. }
  rewrite Forall_forall in H. apply H, Hin.
Qed.

Lemma namespace_example_witness :
  In (mkEntity "class" "B" "A::B" (Some "class B") 1 1 true 0 false) (entities_of Trees.tree_ABc) /\
  mem_str "class" ["class"; "struct"; "function"; "enum"] = true.
Proof.
  assert (H : In (mkEntity "class" "B" "A::B" (Some "class B") 1 1 true 0 false)
                 (entities_of Trees.tree_ABc)) by (vm_compute; left; reflexivity).
  split; [exact H | exact (proj1 namespace_example Trees.tree_ABc _ H)].
Defined.

(** The entities of [namespace A { class B { void c() {} } }] are not [A],
    [A::B] and [A::B::c]. *)
Lemma namespace_example_entities :
  map qualified_name (entities_of Trees.tree_ABc) <> ["A"; "A::B"; "A::B::c"].
Proof. vm_compute. discriminate. Qed.

End ExampleFacts.

Module ParserExtras.
Import Py Parser.

Lemma pstate_grows_refl : forall st, pstate_grows st st.
Proof. intros st. repeat split; exists []; rewrite app_nil_r; reflexivity. Qed.

Lemma pstate_grows_trans : forall st1 st2 st3,
  pstate_grows st1 st2 -> pstate_grows st2 st3 -> pstate_grows st1 st3.
Proof.
  intros st1 st2 st3 [Hn1 [Hc1 [[es1 He1] [rs1 Hr1]]]] [Hn2 [Hc2 [[es2 He2] [rs2 Hr2]]]].
  repeat split; [congruence | congruence | exists (es1 ++ es2) | exists (rs1 ++ rs2)];
    rewrite app_assoc; congruence.
Qed.

(** X2: [_extract_entities] leaves the parser's [current_namespace] and
    [current_class] as it found them (each push is matched by its pop, each
    class save by its restore), and only appends to the entity and
    relationship lists. *)
Theorem extract_entities_balanced : forall n st, pstate_grows st (extract_entities n st).
Proof.
  assert (H : forall n, (forall st, pstate_grows st (extract_entities n st)) /\
                        (forall st, pstate_grows st (walk (kid_list_of n) st))).
  { apply (node_mut
      (fun n => (forall st, pstate_grows st (extract_entities n st)) /\
                (forall st, pstate_grows st (walk (kid_list_of n) st)))
      (fun ks => forall st, pstate_grows st (walk ks st) /\ pstate_grows st (walk_body ks st))).
    - intros t x a b ks IH. split; [|intros st; apply (proj1 (IH st))].
      intros st. cbn [extract_entities].
      destruct (String.eqb t "namespace_definition").
      { destruct (child_by_field_name (Node t x a b ks) "name") as [nm|]; [|apply pstate_grows_refl].
        destruct (proj2 (IH (set_ns st (current_namespace st ++ [node_text nm]))))
          as [Hn [Hc [[es He] [rs Hr]]]].
        cbn [set_ns current_namespace current_class p_entities p_relationships] in *.
        repeat split; cbn.
        - rewrite Hn, removelast_last. reflexivity.
        - exact Hc.
        - exists es; exact He.
        - exists rs; exact Hr. }
      destruct (mem_str t ["class_specifier"; "struct_specifier"]).
      { destruct (child_by_field_name (Node t x a b ks) "name") as [nm|]; [|apply pstate_grows_refl].
        match goal with
        | |- context [walk_body ks (set_class ?s ?c)] =>
            destruct (proj2 (IH (set_class s c))) as [Hn [Hc [[es He] [rs Hr]]]]
        end.
        cbn [set_ns set_class add_entity add_rels current_namespace current_class
             p_entities p_relationships] in *.
        repeat split; cbn.
        - exact Hn.
        - rewrite He, <- app_assoc. eexists. reflexivity.
        - rewrite Hr, <- app_assoc. eexists. reflexivity. }
      destruct (mem_str t ["function_definition"; "function_declarator"]).
      { destruct (if String.eqb t "function_declarator" then Some (Node t x a b ks)
                  else child_by_field_name (Node t x a b ks) "declarator") as [d|];
          [|apply pstate_grows_refl].
        destruct (get_function_name_node d); [|apply pstate_grows_refl].
        repeat split; [eexists; reflexivity | exists []; rewrite app_nil_r; reflexivity]. }
      destruct (String.eqb t "enum_specifier").
      { destruct (child_by_field_name (Node t x a b ks) "name"); [|apply pstate_grows_refl].
        repeat split; [eexists; reflexivity | exists []; rewrite app_nil_r; reflexivity]. }
      apply (proj1 (IH st)).
    - intros st. split; apply pstate_grows_refl.
    - intros f c IHc ks IHks st. split.
      + cbn [walk]. apply pstate_grows_trans with (extract_entities c st);
          [apply (proj1 IHc) | apply (proj1 (IHks _))].
      + destruct f as [f|]; destruct c as [t x a b bk]; cbn [walk_body];
          [destruct (String.eqb f "body")|].
        * apply (proj2 IHc).
        * apply (proj2 (IHks st)).
        * apply (proj2 (IHks st)). }
  intros n st. apply (proj1 (H n)).
Qed.

Lemma str_app_assoc : forall a b c : string, ((a ++ b) ++ c)%string = (a ++ (b ++ c))%string.
Proof. induction a as [|x a IH]; intros b c; cbn; [reflexivity | rewrite IH; reflexivity]. Qed.

Lemma join_dc_snoc : forall l s,
  join_dc (l ++ [s]) = s \/ exists p, join_dc (l ++ [s]) = (p ++ "::" ++ s)%string.
Proof.
  unfold join_dc. induction l as [|x l IH]; intros s; [left; reflexivity|].
  right. cbn [app]. specialize (IH s).
  destruct (l ++ [s]) as [|y l'] eqn:E; [destruct l; discriminate|].
  change (String.concat "::" (x :: y :: l')) with (x ++ "::" ++ String.concat "::" (y :: l'))%string.
  destruct IH as [H | [p H]].
  - exists x. rewrite H. reflexivity.
  - exists (x ++ "::" ++ p)%string. rewrite H, !str_app_assoc. reflexivity.
Qed.

Lemma build_qualified_name_ends : forall st s,
  build_qualified_name st s = s \/ exists p, build_qualified_name st s = (p ++ "::" ++ s)%string.
Proof. intros st s. unfold build_qualified_name. rewrite app_assoc. apply join_dc_snoc. Qed.

(** X3: every entity's qualified name is its simple name, or ends with "::"
    followed by its simple name. *)
Theorem qualified_name_ends_with_simple : forall root e,
  In e (entities_of root) ->
  qualified_name e = simple_name e \/
  exists p, qualified_name e = (p ++ "::" ++ simple_name e)%string.
Proof.
  intros root e Hin.
  assert (H : Forall (fun e => qualified_name e = simple_name e \/
                               exists p, qualified_name e = (p ++ "::" ++ simple_name e)%string)
                     (entities_of root)).
  { apply ParserFacts.extract_entities_forall; [| | | constructor]; intros; apply build_qualified_name_ends. }
  rewrite Forall_forall in H. apply H, Hin.
Qed.

Lemma qualified_name_ends_with_simple_witness :
  In (mkEntity "class" "B" "A::B" (Some "class B") 1 1 true 0 false) (entities_of Trees.tree_ABc) /\
  (qualified_name (mkEntity "class" "B" "A::B" (Some "class B") 1 1 true 0 false) =
     simple_name (mkEntity "class" "B" "A::B" (Some "class B") 1 1 true 0 false) \/
   exists p, qualified_name (mkEntity "class" "B" "A::B" (Some "class B") 1 1 true 0 false) =
     (p ++ "::" ++ simple_name (mkEntity "class" "B" "A::B" (Some "class B") 1 1 true 0 false))%string).
Proof.
  assert (H : In (mkEntity "class" "B" "A::B" (Some "class B") 1 1 true 0 false)
                 (entities_of Trees.tree_ABc)) by (vm_compute; left; reflexivity).
  split; [exact H | exact (qualified_name_ends_with_simple Trees.tree_ABc _ H)].
Defined.

Lemma scan_comments_some : forall lines idx acc,
  Forall (fun i => i < length lines) idx -> exists r, scan_comments lines idx acc = Some r.
Proof.
  intros lines idx. induction idx as [|i idx IH]; intros acc H; [exists acc; reflexivity|].
  inversion H as [|? ? Hi Hidx]; subst. cbn [scan_comments].
  destruct (nth_error lines i) as [l|] eqn:E;
    [|apply nth_error_None in E; lia].
  destruct (_ || _); [apply IH, Hidx|].
  destruct (String.eqb _ ""); [apply IH, Hidx | exists acc; reflexivity].
Qed.

Lemma scan_comments_length : forall lines idx acc r,
  scan_comments lines idx acc = Some r -> length r <= length acc + length idx.
Proof.
  intros lines idx. induction idx as [|i idx IH]; intros acc r H.
  - injection H as <-. cbn. lia.
  - cbn [scan_comments] in H. destruct (nth_error lines i); [|discriminate].
    destruct (_ || _).
    + apply IH in H. cbn [length] in *. lia.
    + destruct (String.eqb _ "").
      * apply IH in H. cbn [length] in *. lia.
      * injection H as <-. cbn [length]. lia.
Qed.

Lemma comment_indices_length : forall start,
  length (comment_indices start) = if start <=? 19 then start - 1 else 18.
Proof. intros start. unfold comment_indices. rewrite length_map, length_seq. reflexivity. Qed.

Lemma comment_indices_bound : forall start i, In i (comment_indices start) -> i <= start - 2.
Proof.
  intros start i H. unfold comment_indices in H.
  apply in_map_iff in H as [k [<- _]]. lia.
Qed.

Lemma comment_indices_head : forall start, 2 <= start ->
  exists rest, comment_indices start = (start - 2) :: rest.
Proof.
  intros start H. unfold comment_indices.
  destruct (start <=? 19) eqn:E.
  - destruct (start - 1) as [|c] eqn:Ec; [lia|]. cbn. rewrite Nat.sub_0_r. eexists; reflexivity.
  - cbn. rewrite Nat.sub_0_r. eexists; reflexivity.
Qed.

Lemma entity_chunks_none : forall lines e,
  entity_chunks lines e = None <-> length lines + 2 <= start_line e.
Proof.
  intros lines e. unfold entity_chunks.
  destruct (1 <? start_line e) eqn:E1; [apply Nat.ltb_lt in E1 | apply Nat.ltb_ge in E1];
    [|split; [discriminate | lia]].
  destruct (Nat.le_gt_cases (length lines + 2) (start_line e)) as [Hle|Hgt].
  - split; [intros _; exact Hle|intros _].
    destruct (comment_indices_head (start_line e) ltac:(lia)) as [rest Hr]. rewrite Hr.
    cbn [scan_comments]. replace (nth_error lines (start_line e - 2)) with (@None string);
      [reflexivity | symmetry; apply nth_error_None; lia].
  - split; [|lia]. intros H.
    destruct (scan_comments_some lines (comment_indices (start_line e)) [])
      as [r Hr]; [|rewrite Hr in H; destruct (2 <? length r); discriminate].
    apply Forall_forall. intros i Hi. apply comment_indices_bound in Hi. lia.
Qed.

Lemma create_chunks_aux_none : forall lines es,
  create_chunks_aux lines es = None <-> exists e, In e es /\ entity_chunks lines e = None.
Proof.
  intros lines es. induction es as [|e es IH]; cbn [create_chunks_aux].
  - split; [discriminate | intros [e [[] _]]].
  - destruct (entity_chunks lines e) as [c|] eqn:E.
    + destruct (create_chunks_aux lines es) as [cs|].
      * split; [discriminate|]. intros [e' [[<-|Hin] H]]; [congruence|].
        assert (Some cs = None) by (apply IH; exists e'; split; assumption). discriminate.
      * split; [intros _|reflexivity]. destruct (proj1 IH eq_refl) as [e' [Hin H]].
        exists e'. split; [right; exact Hin | exact H].
    + split; [intros _; exists e; split; [left; reflexivity | exact E] | reflexivity].
Qed.

(** X4: [_create_chunks] raises (an [IndexError] in the upward scan for a
    comment block) exactly when some entity starts two or more lines past
    the last line of [content.splitlines()]. *)
Theorem create_chunks_none_iff : forall es content,
  create_chunks es content = None <->
  exists e, In e es /\ length (splitlines content) + 2 <= start_line e.
Proof.
  intros es content. unfold create_chunks. rewrite create_chunks_aux_none.
  split; intros [e [Hin H]]; exists e; split; try exact Hin; apply entity_chunks_none; exact H.
Qed.

Lemma create_chunks_none_iff_witness :
  create_chunks [mkEntity "function" "f" "f" None 3 3 true 1 true] "int x;" = None /\
  exists e, In e [mkEntity "function" "f" "f" None 3 3 true 1 true] /\
            length (splitlines "int x;") + 2 <= start_line e.
Proof.
  assert (H : exists e, In e [mkEntity "function" "f" "f" None 3 3 true 1 true] /\
                        length (splitlines "int x;") + 2 <= start_line e)
    by (eexists; split; [left; reflexivity | vm_compute; lia]).
  split; [apply (proj2 (create_chunks_none_iff _ _)), H | exact H].
Defined.

Lemma entity_chunks_shape : forall lines e g,
  entity_chunks lines e = Some g ->
  exists main rest, g = main :: rest /\ length rest <= 1 /\
    entity_name main = Some (qualified_name e) /\ chunk_type main = chunk_type_of e /\
    ch_start_line main = start_line e /\
    Forall (fun c => entity_name c = Some (qualified_name e) /\
                     chunk_type c = "comment_block" /\ ch_end_line c = start_line e /\
                     1 <= ch_start_line c /\
                     3 <= ch_end_line c - ch_start_line c <= 18) rest.
Proof.
  intros lines e g H. unfold entity_chunks in H.
  set (main := if 100 <? length _ then _ else _) in H.
  assert (Hm : entity_name main = Some (qualified_name e) /\ chunk_type main = chunk_type_of e /\
               ch_start_line main = start_line e)
    by (subst main; destruct (100 <? _); repeat split).
  destruct (1 <? start_line e) eqn:E1;
    [|injection H as <-; exists main, []; repeat split; try apply Hm; [cbn; lia | constructor]].
  apply Nat.ltb_lt in E1.
  destruct (scan_comments lines (comment_indices (start_line e)) []) as [cl|] eqn:Es; [|discriminate].
  apply scan_comments_length in Es. rewrite comment_indices_length in Es. cbn [length] in Es.
  destruct (2 <? length cl) eqn:E2;
    [|injection H as <-; exists main, []; repeat split; try apply Hm; [cbn; lia | constructor]].
  apply Nat.ltb_lt in E2. injection H as <-.
  eexists main, [_]. repeat split; try apply Hm; [cbn; lia|].
  constructor; [|constructor]. cbn.
  destruct (start_line e <=? 19) eqn:E3; [apply Nat.leb_le in E3 | apply Nat.leb_gt in E3];
    repeat split; lia.
Qed.

(** X5: when [_create_chunks] returns, its chunks are, entity by entity in
    order, one main chunk naming the entity, with the entity's chunk type and
    first line, followed by at most one "comment_block" chunk for the same
    entity that ends on the entity's first line and spans 3 to 18 lines. *)
Theorem create_chunks_shape : forall es content cs,
  create_chunks es content = Some cs ->
  exists gs, cs = concat gs /\
    Forall2 (fun e g => exists main rest, g = main :: rest /\ length rest <= 1 /\
       entity_name main = Some (qualified_name e) /\ chunk_type main = chunk_type_of e /\
       ch_start_line main = start_line e /\
       Forall (fun c => entity_name c = Some (qualified_name e) /\
                        chunk_type c = "comment_block" /\ ch_end_line c = start_line e /\
                        1 <= ch_start_line c /\
                        3 <= ch_end_line c - ch_start_line c <= 18) rest) es gs.
Proof.
  intros es content. unfold create_chunks. generalize (splitlines content) as lines.
  intros lines. induction es as [|e es IH]; intros cs H.
  - injection H as <-. exists []. split; [reflexivity | constructor].
  - cbn [create_chunks_aux] in H.
    destruct (entity_chunks lines e) as [g|] eqn:Eg; [|discriminate].
    destruct (create_chunks_aux lines es) as [cs'|]; [|discriminate].
    injection H as <-. destruct (IH cs' eq_refl) as [gs [-> Hgs]].
    exists (g :: gs). split; [reflexivity|]. constructor; [|exact Hgs].
    apply (entity_chunks_shape lines e g Eg).
Qed.

Lemma create_chunks_shape_witness :
  create_chunks (entities_of Trees.tree_f) "int f(int x) { if (x) return 1; return 0; }" =
    Some [mkChunk (Some "f") "implementation" "int f(int x) { if (x) return 1; return 0; }" 1 1 []] /\
  exists gs, [mkChunk (Some "f") "implementation" "int f(int x) { if (x) return 1; return 0; }" 1 1 []]
               = concat gs /\
    Forall2 (fun e g => exists main rest, g = main :: rest /\ length rest <= 1 /\
       entity_name main = Some (qualified_name e) /\ chunk_type main = chunk_type_of e /\
       ch_start_line main = start_line e /\
       Forall (fun c => entity_name c = Some (qualified_name e) /\
                        chunk_type c = "comment_block" /\ ch_end_line c = start_line e /\
                        1 <= ch_start_line c /\
                        3 <= ch_end_line c - ch_start_line c <= 18) rest)
      (entities_of Trees.tree_f) gs.
Proof.
  assert (H : create_chunks (entities_of Trees.tree_f) "int f(int x) { if (x) return 1; return 0; }" =
    Some [mkChunk (Some "f") "implementation" "int f(int x) { if (x) return 1; return 0; }" 1 1 []])
    by (vm_compute; reflexivity).
  split; [exact H | exact (create_chunks_shape _ _ _ H)].
Defined.

Lemma take_length : forall n s, String.length (take n s) <= n.
Proof.
  unfold take. intros n s. revert n. induction s as [|c s IH]; intros [|n]; cbn; try lia.
  specialize (IH n). lia.
Qed.

Lemma extract_relationships_fields : forall n rs,
  Forall (fun r => (relationship_type r = "calls" -> String.length (context r) <= 200) /\
                   (relationship_type r = "includes" -> to_entity r <> "")) rs ->
  Forall (fun r => (relationship_type r = "calls" -> String.length (context r) <= 200) /\
                   (relationship_type r = "includes" -> to_entity r <> ""))
         (extract_relationships n rs).
Proof.
  apply (node_mut
    (fun n => forall rs,
       Forall (fun r => (relationship_type r = "calls" -> String.length (context r) <= 200) /\
                        (relationship_type r = "includes" -> to_entity r <> "")) rs ->
       Forall (fun r => (relationship_type r = "calls" -> String.length (context r) <= 200) /\
                        (relationship_type r = "includes" -> to_entity r <> ""))
              (extract_relationships n rs))
    (fun ks => forall rs,
       Forall (fun r => (relationship_type r = "calls" -> String.length (context r) <= 200) /\
                        (relationship_type r = "includes" -> to_entity r <> "")) rs ->
       Forall (fun r => (relationship_type r = "calls" -> String.length (context r) <= 200) /\
                        (relationship_type r = "includes" -> to_entity r <> ""))
              (relationships_kids ks rs))).
  - intros t x a b ks IH rs H. cbn [extract_relationships]. apply IH.
    destruct (String.eqb t "preproc_include").
    + destruct (find _ _); [|exact H].
      destruct (String.eqb _ "") eqn:E; [exact H|].
      apply Forall_app; split; [exact H|]. constructor; [|constructor].
      cbn. split; [discriminate|]. intros _. apply String.eqb_neq, E.
    + destruct (String.eqb t "call_expression"); [|exact H].
      destruct (child_by_field_name _ "function"); [|exact H].
      apply Forall_app; split; [exact H|]. constructor; [|constructor].
      cbn. split; [intros _; apply take_length | discriminate].
  - intros rs H; exact H.
  - intros f c IHc ks IHks rs H. apply IHks, IHc, H.
Qed.

(** X6: in what [parse_file] returns, every "calls" edge and every
    "includes" edge has an empty "from" entity; a call edge's context is at
    most 200 characters long, and an include edge's target is not empty. *)
Theorem parse_file_edge_fields : forall root content es rs cs,
  parse_file root content = Some (es, rs, cs) ->
  Forall (fun r => (relationship_type r = "calls" ->
                      from_entity r = "" /\ String.length (context r) <= 200) /\
                   (relationship_type r = "includes" ->
                      from_entity r = "" /\ to_entity r <> "")) rs.
Proof.
  intros root content es rs cs H.
  pose proof (ParserFacts.parse_file_rel_shape root content es rs cs H) as Hs.
  unfold parse_file in H. destruct (create_chunks _ content); [|discriminate].
  injection H as _ Hr _.
  assert (Hf : Forall (fun r => (relationship_type r = "calls" -> String.length (context r) <= 200) /\
                                (relationship_type r = "includes" -> to_entity r <> "")) rs).
  { rewrite <- Hr. apply extract_relationships_fields.
    assert (Hi : Forall (fun r => relationship_type r = "inherits")
                        (p_relationships (extract_entities root initial_pstate))).
    { refine (proj1 (ParserFacts.extract_entities_inv_all root
                (fun st => Forall (fun r => relationship_type r = "inherits") (p_relationships st))
                (fun st ns H => H) (fun st c H => H) _ _ _ root (sub_refl root))
                initial_pstate (Forall_nil _)).
      - intros n st s _ _ Hst. cbn. apply Forall_app; split; [exact Hst|].
        unfold inherit_rels. destruct (child_by_field_name n "base_clause"); [|constructor].
        apply Forall_forall. intros r Hr'. apply in_map_iff in Hr' as [b [<- _]]. reflexivity.
      - intros; assumption.
      - intros; assumption. }
    revert Hi. apply Forall_impl. intros r E. rewrite E. split; discriminate. }
  rewrite Forall_forall in *. intros r Hin.
  destruct (Hf r Hin) as [Hc Hi]. destruct (Hs r Hin) as [Ht|Hfrom].
  - split; intros E; rewrite E in Ht; discriminate.
  - split; intros E; split; auto.
Qed.

Lemma parse_file_edge_fields_witness :
  parse_file Trees.tree_call Trees.src_call =
    Some ([mkEntity "function" "g" "g" (Some "g()") 1 1 true 1 true],
          [mkRel "" "f" "calls" "f()" 1],
          [mkChunk (Some "g") "implementation" "void g() { f(); }" 1 1 []]) /\
  Forall (fun r => (relationship_type r = "calls" ->
                      from_entity r = "" /\ String.length (context r) <= 200) /\
                   (relationship_type r = "includes" ->
                      from_entity r = "" /\ to_entity r <> "")) [mkRel "" "f" "calls" "f()" 1].
Proof.
  assert (H : parse_file Trees.tree_call Trees.src_call =
    Some ([mkEntity "function" "g" "g" (Some "g()") 1 1 true 1 true],
          [mkRel "" "f" "calls" "f()" 1],
          [mkChunk (Some "g") "implementation" "void g() { f(); }" 1 1 []]))
    by (vm_compute; reflexivity).
  split; [exact H | exact (parse_file_edge_fields _ _ _ _ _ H)].
Defined.

End ParserExtras.

Module IndexerExtras.
Import Py Parser Indexer.

Lemma prune_orphans_incl : forall k es, incl (prune_orphans k es) es.
Proof.
  induction k as [|k IH]; intros es; cbn [prune_orphans]; [apply incl_refl|].
  eapply incl_tran; [apply IH|]. intros e He. apply filter_In in He as [He _]. exact He.
Qed.

Lemma prune_orphans_root : forall k es e, In e es -> se_parent e = None -> In e (prune_orphans k es).
Proof.
  induction k as [|k IH]; intros es e Hin Hp; cbn [prune_orphans]; [exact Hin|].
  apply IH; [|exact Hp]. apply filter_In. split; [exact Hin|]. rewrite Hp. reflexivity.
Qed.

Lemma in_ent_ids : forall es i, In i (ent_ids es) <-> exists e, In e es /\ se_id e = i.
Proof.
  intros es i. unfold ent_ids. rewrite in_map_iff. split; intros [e [H1 H2]]; exists e; auto.
Qed.

(** X8: [DELETE FROM entities WHERE file_id = $1] with its cascades leaves
    no entity row of the file and adds none; it keeps every parentless
    entity row of the other files; no relationship or chunk is left
    pointing at a deleted entity row; files, the id sequence and the cache
    are untouched. *)
Theorem delete_file_entities_effect : forall fid w,
  fst (delete_file_entities fid w) = Ok tt /\
  Forall (fun e => se_file e <> fid) (ents (db (snd (delete_file_entities fid w)))) /\
  incl (ents (db (snd (delete_file_entities fid w)))) (ents (db w)) /\
  (forall e, In e (ents (db w)) -> se_file e <> fid -> se_parent e = None ->
     In e (ents (db (snd (delete_file_entities fid w))))) /\
  (forall r, In r (rels (db (snd (delete_file_entities fid w)))) ->
     In r (rels (db w)) /\
     (In (sr_from r) (ent_ids (ents (db w))) ->
        In (sr_from r) (ent_ids (ents (db (snd (delete_file_entities fid w)))))) /\
     (In (sr_to r) (ent_ids (ents (db w))) ->
        In (sr_to r) (ent_ids (ents (db (snd (delete_file_entities fid w))))))) /\
  (forall c i, In c (chunks (db (snd (delete_file_entities fid w)))) -> sc_entity c = Some i ->
     In c (chunks (db w)) /\
     (In i (ent_ids (ents (db w))) -> In i (ent_ids (ents (db (snd (delete_file_entities fid w))))))) /\
  files (db (snd (delete_file_entities fid w))) = files (db w) /\
  next_eid (db (snd (delete_file_entities fid w))) = next_eid (db w) /\
  cache (snd (delete_file_entities fid w)) = cache w.
Proof.
  intros fid w. unfold delete_file_entities. cbn [fst snd db cache files ents rels chunks next_eid].
  split; [reflexivity|]. split; [|split; [|split; [|split; [|split; [|repeat split]]]]].
  - apply Forall_forall. intros e He. apply prune_orphans_incl in He.
    apply filter_In in He as [_ He]. apply negb_true_iff, Nat.eqb_neq in He. exact He.
  - intros e He. apply prune_orphans_incl in He. apply filter_In in He as [He _]. exact He.
  - intros e Hin Hf Hp. apply prune_orphans_root; [|exact Hp].
    apply filter_In. split; [exact Hin|]. apply negb_true_iff, Nat.eqb_neq, Hf.
  - intros r Hr. apply filter_In in Hr as [Hr Hf]. apply andb_true_iff in Hf as [Hf Ht].
    apply negb_true_iff in Hf, Ht. split; [exact Hr|].
    split; intros Hi; eapply IndexerFacts.not_removed_in; eassumption.
  - intros c i Hc Hi. apply filter_In in Hc as [Hc Hf]. rewrite Hi in Hf.
    apply negb_true_iff in Hf. split; [exact Hc|]. intros Hin; eapply IndexerFacts.not_removed_in; eassumption.
Qed.

End IndexerExtras.

Module ServerExtras.
Import Py Parser Indexer Server.

Lemma find_file_some : forall path fs r,
  find_file path fs = Some r -> In r fs /\ f_path r = path.
Proof.
  intros path fs r H. unfold find_file in H. apply find_some in H as [Hin Hp].
  split; [exact Hin | apply String.eqb_eq, Hp].
Qed.

Lemma find_file_none : forall path fs f,
  find_file path fs = None -> In f fs -> f_path f <> path.
Proof.
  intros path fs f H Hin. unfold find_file in H. eapply find_none in H; [|exact Hin].
  apply String.eqb_neq, H.
Qed.

Lemma nodup_path_eq : forall fs f g,
  NoDup (map f_path fs) -> In f fs -> In g fs -> f_path f = f_path g -> f = g.
Proof.
  intros fs f g Hnd. induction fs as [|h fs IH]; [intros []|].
  cbn [map] in Hnd. inversion Hnd as [|? ? Hn Hnd']; subst.
  intros [<-|Hf] [<-|Hg] E; try reflexivity.
  - exfalso. apply Hn. rewrite E. apply in_map, Hg.
  - exfalso. apply Hn. rewrite <- E. apply in_map, Hf.
  - apply IH; assumption.
Qed.

Lemma find_file_app : forall path l1 l2,
  find_file path (l1 ++ l2) =
  match find_file path l1 with Some r => Some r | None => find_file path l2 end.
Proof.
  intros path l1 l2. unfold find_file. induction l1 as [|f l1 IH]; [reflexivity|].
  cbn [app find]. destruct (String.eqb (f_path f) path); [reflexivity | exact IH].
Qed.

Lemma max_fid_ge : forall fs f, In f fs -> f_id f <= max_fid fs.
Proof.
  intros fs f. induction fs as [|h fs IH]; [intros []|].
  intros [<-|H]; cbn [max_fid fold_right]; [lia|].
  specialize (IH H). unfold max_fid in IH. lia.
Qed.

Lemma find_file_map_upd : forall path hash fs,
  find_file path (map (fun f => if String.eqb (f_path f) path
                                then mkFileRow (f_id f) path hash "indexing" else f) fs) =
  option_map (fun f => mkFileRow (f_id f) path hash "indexing") (find_file path fs).
Proof.
  intros path hash fs. unfold find_file. induction fs as [|f fs IH]; [reflexivity|].
  cbn [map find]. destruct (String.eqb (f_path f) path) eqn:E; cbn [f_path].
  - rewrite String.eqb_refl. reflexivity.
  - rewrite E. exact IH.
Qed.

(** X10: [INSERT INTO files ... ON CONFLICT (path) DO UPDATE ... RETURNING id]
    keeps paths and ids unique. It returns the id of the path's row, the old
    id for a known path and a fresh one for a new path; that row then has the
    new hash and status "indexing", and every row of another path stays. *)
Theorem upsert_file_unique : forall path hash w,
  NoDup (map f_path (files (db w))) -> NoDup (map f_id (files (db w))) ->
  exists id, fst (upsert_file path hash w) = Ok id /\
    find_file path (files (db (snd (upsert_file path hash w)))) =
      Some (mkFileRow id path hash "indexing") /\
    NoDup (map f_path (files (db (snd (upsert_file path hash w))))) /\
    NoDup (map f_id (files (db (snd (upsert_file path hash w))))) /\
    (forall f, In f (files (db w)) -> (f_path f = path <-> f_id f = id)) /\
    (forall f, In f (files (db w)) -> f_path f <> path ->
       In f (files (db (snd (upsert_file path hash w))))).
Proof.
  intros path hash w Hp Hi. unfold upsert_file.
  destruct (find_file path (files (db w))) as [r|] eqn:E.
  - destruct (find_file_some _ _ _ E) as [Hr Hrp].
    exists (f_id r). cbn [fst snd db set_files files]. split; [reflexivity|].
    split; [rewrite find_file_map_upd, E; reflexivity|].
    split; [|split; [|split]].
    + rewrite map_map. erewrite map_ext; [exact Hp|].
      intros f. destruct (String.eqb (f_path f) path) eqn:Ef; [apply String.eqb_eq in Ef|]; auto.
    + rewrite map_map. erewrite map_ext; [exact Hi|].
      intros f. destruct (String.eqb (f_path f) path); reflexivity.
    + intros f Hf. split; intros H.
      * rewrite (nodup_path_eq _ f r Hp Hf Hr); [reflexivity | congruence].
      * destruct (string_dec (f_path f) path) as [Ep|Ep]; [exact Ep|].
        exfalso. assert (f = r); [|subst f; contradiction].
        clear -Hi Hf Hr H. induction (files (db w)) as [|h fs IH]; [destruct Hf|].
        cbn [map] in Hi. inversion Hi as [|? ? Hn Hi']; subst.
        destruct Hf as [<-|Hf], Hr as [<-|Hr]; try reflexivity.
        -- exfalso. apply Hn. rewrite H. apply in_map, Hr.
        -- exfalso. apply Hn. rewrite <- H. apply in_map, Hf.
        -- apply IH; assumption.
    + intros f Hf Hne. apply in_map_iff. exists f. split; [|exact Hf].
      apply String.eqb_neq in Hne. rewrite Hne. reflexivity.
  - exists (S (max_fid (files (db w)))). cbn [fst snd db set_files files]. split; [reflexivity|].
    split; [|split; [|split; [|split]]].
    + rewrite find_file_app, E. cbn. rewrite String.eqb_refl. reflexivity.
    + rewrite map_app. apply NoDup_app; [exact Hp | repeat constructor; intros [] |].
      intros x Hx [<-|[]]. apply in_map_iff in Hx as [f [Ef Hf]].
      exact (find_file_none _ _ _ E Hf Ef).
    + rewrite map_app. apply NoDup_app; [exact Hi | repeat constructor; intros [] |].
      intros x Hx [Hx'|[]]. cbn in Hx'. subst x. apply in_map_iff in Hx as [f [Ef Hf]].
      apply max_fid_ge in Hf. lia.
    + intros f Hf. split; intros H.
      * exfalso. exact (find_file_none _ _ _ E Hf H).
      * apply max_fid_ge in Hf. lia.
    + intros f Hf _. apply in_or_app. left. exact Hf.
Qed.

Lemma upsert_file_unique_witness :
  NoDup (map f_path (files (db Scenarios.world_old))) /\
  NoDup (map f_id (files (db Scenarios.world_old))) /\
  exists id, fst (upsert_file "b.cpp" "h2" Scenarios.world_old) = Ok id /\
    find_file "b.cpp" (files (db (snd (upsert_file "b.cpp" "h2" Scenarios.world_old)))) =
      Some (mkFileRow id "b.cpp" "h2" "indexing") /\
    NoDup (map f_path (files (db (snd (upsert_file "b.cpp" "h2" Scenarios.world_old))))) /\
    NoDup (map f_id (files (db (snd (upsert_file "b.cpp" "h2" Scenarios.world_old))))) /\
    (forall f, In f (files (db Scenarios.world_old)) -> (f_path f = "b.cpp" <-> f_id f = id)) /\
    (forall f, In f (files (db Scenarios.world_old)) -> f_path f <> "b.cpp" ->
       In f (files (db (snd (upsert_file "b.cpp" "h2" Scenarios.world_old))))).
Proof.
  assert (Hp : NoDup (map f_path (files (db Scenarios.world_old))))
    by (cbn; repeat constructor; intros []).
  assert (Hi : NoDup (map f_id (files (db Scenarios.world_old))))
    by (cbn; repeat constructor; intros []).
  split; [exact Hp | split; [exact Hi | exact (upsert_file_unique _ _ _ Hp Hi)]].
Defined.














Lemma kf_ret : forall {A} (a : A), keys_frame (ret a).
Proof. intros A a w. reflexivity. Qed.

Lemma kf_bind : forall {A B} (m : M A) (k : A -> M B),
  keys_frame m -> (forall a, keys_frame (k a)) -> keys_frame (bind m k).
Proof.
  intros A B m k Hm Hk w. unfold bind. specialize (Hm w).
  destruct (m w) as [[a|e] w']; cbn in *; [rewrite Hk|]; exact Hm.
Qed.

Lemma kf_mapM_ : forall {A} (f : A -> M unit) l, (forall x, keys_frame (f x)) -> keys_frame (mapM_ f l).
Proof.
  intros A f l Hf. induction l as [|x l IH]; cbn [mapM_]; [apply kf_ret|].
  apply kf_bind; [apply Hf | intros; exact IH].
Qed.

Lemma kf_transaction : forall {A} (m : M A), keys_frame m -> keys_frame (transaction m).
Proof.
  intros A m Hm w. unfold transaction. specialize (Hm w).
  destruct (m w) as [[a|e] w']; cbn in *; [exact Hm | reflexivity].
Qed.

Lemma kf_files : forall {A} (m : M A), (forall w, files (db (snd (m w))) = files (db w)) -> keys_frame m.
Proof. intros A m H w. rewrite H. reflexivity. Qed.

Ltac files_same :=
  apply kf_files; intro;
  repeat match goal with
         | |- context [if ?b then _ else _] => destruct b
         | |- context [match ?x with _ => _ end] => destruct x
         end; reflexivity.

Lemma kf_insert_entities : forall fid es emap, keys_frame (insert_entities fid es emap).
Proof.
  intros fid es. induction es as [|e es IH]; intros emap; cbn [insert_entities]; [apply kf_ret|].
  apply kf_bind; [unfold insert_entity; files_same | intros; apply IH].
Qed.

Lemma kf_resolve_parent : forall emap e, keys_frame (resolve_parent emap e).
Proof. intros emap e. unfold resolve_parent, update_parent, ret. files_same. Qed.

Lemma kf_insert_relationship : forall emap rel, keys_frame (insert_relationship emap rel).
Proof.
  intros emap rel w. unfold insert_relationship.
  destruct (String.eqb (relationship_type rel) "includes"); [reflexivity|].
  match goal with |- fkeys (files (db (snd (?m w)))) = _ => enough (keys_frame m) by auto end.
  apply kf_bind.
  - unfold fetch_by_simple_name, ret. files_same.
  - intros a. unfold insert_rel_row, ret. files_same.
Qed.

Lemma kf_insert_chunk : forall encode emap fid c, keys_frame (insert_chunk encode emap fid c).
Proof.
  intros encode emap fid c. unfold insert_chunk. apply kf_bind.
  - unfold embed. files_same.
  - intros a. unfold insert_chunk_row. files_same.
Qed.

Lemma kf_mark_indexed : forall fid, keys_frame (mark_indexed fid).
Proof.
  intros fid w. unfold mark_indexed, fkeys. cbn. rewrite map_map. apply map_ext.
  intros f. destruct (f_id f =? fid); reflexivity.
Qed.

Lemma kf_simple_file_indexing : forall encode fid content,
  keys_frame (simple_file_indexing encode fid content).
Proof.
  intros encode fid content. unfold simple_file_indexing. apply kf_mapM_. intros i.
  unfold fallback_step. destruct (_ <? 50); [apply kf_ret|]. apply kf_bind.
  - unfold embed. files_same.
  - intros a. unfold insert_chunk_row. files_same.
Qed.

Lemma kf_index_file : forall encode fid content parsed,
  keys_frame (index_file encode fid content parsed).
Proof.
  intros encode fid content [[[es rs] cs]|]; cbn [index_file]; [|apply kf_simple_file_indexing].
  apply kf_transaction. apply kf_bind; [unfold delete_file_entities; files_same|]. intros _.
  apply kf_bind; [apply kf_insert_entities|]. intros emap.
  apply kf_bind; [apply kf_mapM_, kf_resolve_parent|]. intros _.
  apply kf_bind; [apply kf_mapM_, kf_insert_relationship|]. intros _.
  apply kf_bind; [apply kf_mapM_, kf_insert_chunk|]. intros _.
  apply kf_mark_indexed.
Qed.

Lemma find_file_map_other : forall path hash p fs, p <> path ->
  find_file p (map (fun f => if String.eqb (f_path f) path
                             then mkFileRow (f_id f) path hash "indexing" else f) fs) =
  find_file p fs.
Proof.
  intros path hash p fs Hp. unfold find_file. induction fs as [|f fs IH]; [reflexivity|].
  cbn [map find]. destruct (String.eqb (f_path f) path) eqn:E; [|rewrite IH; reflexivity].
  apply String.eqb_eq in E. cbn [f_path].
  destruct (String.eqb path p) eqn:E1; [apply String.eqb_eq in E1; congruence|].
  destruct (String.eqb (f_path f) p) eqn:E2; [apply String.eqb_eq in E2; congruence|].
  exact IH.
Qed.

Lemma find_file_fkeys : forall p fs1 fs2, fkeys fs1 = fkeys fs2 ->
  option_map (fun f => (f_id f, f_path f, f_hash f)) (find_file p fs1) =
  option_map (fun f => (f_id f, f_path f, f_hash f)) (find_file p fs2).
Proof.
  intros p fs1. unfold find_file, fkeys. induction fs1 as [|f fs1 IH]; intros [|g fs2] H;
    cbn in H; try discriminate H; [reflexivity|].
  injection H as Hi Hp Hh H. cbn [find]. rewrite Hp.
  destruct (String.eqb (f_path g) p); [cbn; congruence | apply IH, H].
Qed.

Lemma upsert_file_ok : forall path hash w,
  upsert_file path hash w = (fst (upsert_file path hash w), snd (upsert_file path hash w)) /\
  exists id, fst (upsert_file path hash w) = Ok id.
Proof.
  intros path hash w. unfold upsert_file.
  destruct (find_file path (files (db w))); split; try reflexivity; eexists; reflexivity.
Qed.

Lemma upsert_file_self : forall path hash w,
  exists r, find_file path (files (db (snd (upsert_file path hash w)))) = Some r /\ f_hash r = hash.
Proof.
  intros path hash w. unfold upsert_file.
  destruct (find_file path (files (db w))) as [r|] eqn:E; cbn [snd db set_files files].
  - rewrite find_file_map_upd, E. eexists; split; reflexivity.
  - rewrite find_file_app, E. unfold find_file. cbn [find f_path]. rewrite String.eqb_refl.
    eexists; split; reflexivity.
Qed.

Lemma upsert_file_other : forall path hash p w, p <> path ->
  find_file p (files (db (snd (upsert_file path hash w)))) = find_file p (files (db w)).
Proof.
  intros path hash p w Hp. unfold upsert_file.
  destruct (find_file path (files (db w))) as [r|] eqn:E; cbn [snd db set_files files].
  - apply find_file_map_other, Hp.
  - rewrite find_file_app. destruct (find_file p (files (db w))); [reflexivity|].
    unfold find_file. cbn [find f_path].
    destruct (String.eqb path p) eqn:E1; [apply String.eqb_eq in E1; congruence | reflexivity].
Qed.

Lemma index_one_keys : forall ts encode sha path raw w,
  fkeys (files (db (snd (index_one ts encode sha (path, raw) w)))) =
  fkeys (files (db (snd (upsert_file path (sha (read_text raw)) w)))).
Proof.
  intros ts encode sha path raw w. unfold index_one, bind.
  destruct (upsert_file_ok path (sha (read_text raw)) w) as [E [id Hid]].
  rewrite E, Hid. unfold catch_file, ret.
  pose proof (kf_index_file encode id (read_text raw)
                (parse_cpp_file ts (read_text raw)) (snd (upsert_file path (sha (read_text raw)) w))) as Hk.
  unfold index_cpp_file. destruct (index_file _ _ _ _ _) as [[]] ; exact Hk.
Qed.

Lemma batch_cons_world : forall ts encode sha x fs w,
  snd (batch_index_files ts encode sha (x :: fs) w) =
  snd (batch_index_files ts encode sha fs (snd (index_one ts encode sha x w))).
Proof.
  intros ts encode sha x fs w. unfold batch_index_files. cbn [mapM]. unfold bind at 1.
  pose proof (ServerFacts.index_one_path ts encode sha x w) as H.
  destruct (index_one ts encode sha x w) as [[y|e] w1]; cbn in H; [|discriminate H].
  cbn [snd]. unfold bind. pose proof (ServerFacts.batch_index_files_paths ts encode sha fs w1) as H2.
  unfold batch_index_files in H2.
  destruct (mapM (index_one ts encode sha) fs w1) as [[ys|e] w2]; cbn in H2; [reflexivity | discriminate H2].
Qed.

Lemma batch_keys : forall ts encode sha fs w,
  NoDup (map fst fs) ->
  (forall path raw, In (path, raw) fs ->
     exists i h, option_map (fun f => (f_id f, f_path f, f_hash f))
       (find_file path (files (db (snd (batch_index_files ts encode sha fs w))))) =
       Some (i, path, h) /\ h = sha (read_text raw)) /\
  (forall p, ~ In p (map fst fs) ->
     option_map (fun f => (f_id f, f_path f, f_hash f))
       (find_file p (files (db (snd (batch_index_files ts encode sha fs w))))) =
     option_map (fun f => (f_id f, f_path f, f_hash f)) (find_file p (files (db w)))).
Proof.
  intros ts encode sha fs. induction fs as [|[path raw] fs IH]; intros w Hnd.
  - split; [intros ? ? []|reflexivity].
  - inversion Hnd as [|? ? Hn Hnd']; subst. rewrite batch_cons_world.
    set (w1 := snd (index_one ts encode sha (path, raw) w)).
    destruct (IH w1 Hnd') as [IH1 IH2].
    assert (K1 : forall p, option_map (fun f => (f_id f, f_path f, f_hash f)) (find_file p (files (db w1))) =
                 option_map (fun f => (f_id f, f_path f, f_hash f))
                   (find_file p (files (db (snd (upsert_file path (sha (read_text raw)) w)))))).
    { intros p. apply find_file_fkeys, index_one_keys. }
    split.
    + intros p r [E|Hin].
      * injection E as <- <-. rewrite (IH2 _ Hn), K1.
        destruct (upsert_file_self path (sha (read_text raw)) w) as [f [Hf Hh]].
        rewrite Hf. apply find_file_some in Hf as [_ Hp]. cbn.
        exists (f_id f), (f_hash f). rewrite Hp. split; [reflexivity | exact Hh].
      * apply IH1, Hin.
    + intros p Hp. cbn [map fst In] in Hp.
      rewrite (IH2 p (fun H => Hp (or_intror H))), K1, upsert_file_other; [reflexivity|].
      intros E. apply Hp. left. symmetry. exact E.
Qed.

Lemma nodup_map_filter : forall {A B} (f : A -> B) p l,
  NoDup (map f l) -> NoDup (map f (filter p l)).
Proof.
  intros A B f p l H. induction l as [|x l IH]; [constructor|].
  cbn [map] in H. inversion H as [|? ? Hn H']; subst. cbn [filter].
  destruct (p x); [|apply IH, H']. cbn [map]. constructor; [|apply IH, H'].
  intros Hin. apply Hn. apply in_map_iff in Hin as [y [<- Hy]].
  apply filter_In in Hy as [Hy _]. apply in_map, Hy.
Qed.

Lemma nodup_map_eq : forall {A B} (f : A -> B) l x y,
  NoDup (map f l) -> In x l -> In y l -> f x = f y -> x = y.
Proof.
  intros A B f l x y H. induction l as [|z l IH]; [intros []|].
  cbn [map] in H. inversion H as [|? ? Hn H']; subst.
  intros [<-|Hx] [<-|Hy] E; try reflexivity.
  - exfalso. apply Hn. rewrite E. apply in_map, Hy.
  - exfalso. apply Hn. rewrite <- E. apply in_map, Hx.
  - apply IH; assumption.
Qed.

Lemma filter_nil_false : forall {A} (p : A -> bool) l x, filter p l = [] -> In x l -> p x = false.
Proof.
  intros A p l x H Hx. destruct (p x) eqn:E; [|reflexivity].
  assert (Hin : In x (filter p l)) by (apply filter_In; split; assumption).
  rewrite H in Hin. destruct Hin.
Qed.

(** X14: with distinct paths, after [batch_index_files] every file of the
    batch has a [files] row whose hash is the SHA-256 of the text read from
    it, and the id and hash of every path outside the batch are what they
    were: neither the parse, the transaction's rollback nor the fallback
    indexing writes an id, path or hash. *)
Theorem batch_index_files_hashes : forall ts encode sha fs w,
  NoDup (map fst fs) ->
  (forall path raw, In (path, raw) fs ->
     exists r, find_file path (files (db (snd (batch_index_files ts encode sha fs w)))) = Some r /\
               f_hash r = sha (read_text raw)) /\
  (forall p, ~ In p (map fst fs) ->
     option_map (fun f => (f_id f, f_hash f))
       (find_file p (files (db (snd (batch_index_files ts encode sha fs w))))) =
     option_map (fun f => (f_id f, f_hash f)) (find_file p (files (db w)))).
Proof.
  intros ts encode sha fs w Hnd. destruct (batch_keys ts encode sha fs w Hnd) as [H1 H2]. split.
  - intros path raw Hin. destruct (H1 path raw Hin) as [i [h [E Hh]]].
    destruct (find_file path _) as [r|]; cbn in E; [|discriminate E].
    injection E as _ _ Er. exists r. split; [reflexivity | congruence].
  - intros p Hp. specialize (H2 p Hp).
    destruct (find_file p (files (db (snd _)))), (find_file p (files (db w))); cbn in *;
      try discriminate H2; [injection H2 as -> _ ->|]; reflexivity.
Qed.

Lemma batch_index_files_hashes_witness :
  NoDup (map fst [("a.cpp", Scenarios.raw_lf); ("b.cpp", Scenarios.raw_lf)]) /\
  (forall path raw, In (path, raw) [("a.cpp", Scenarios.raw_lf); ("b.cpp", Scenarios.raw_lf)] ->
     exists r, find_file path (files (db (snd (batch_index_files Scenarios.ts_empty Scenarios.enc
                 Scenarios.sha_id [("a.cpp", Scenarios.raw_lf); ("b.cpp", Scenarios.raw_lf)]
                 Scenarios.world_old)))) = Some r /\
               f_hash r = Scenarios.sha_id (read_text raw)) /\
  (forall p, ~ In p (map fst [("a.cpp", Scenarios.raw_lf); ("b.cpp", Scenarios.raw_lf)]) ->
     option_map (fun f => (f_id f, f_hash f))
       (find_file p (files (db (snd (batch_index_files Scenarios.ts_empty Scenarios.enc
          Scenarios.sha_id [("a.cpp", Scenarios.raw_lf); ("b.cpp", Scenarios.raw_lf)]
          Scenarios.world_old))))) =
     option_map (fun f => (f_id f, f_hash f)) (find_file p (files (db Scenarios.world_old)))).
Proof.
  assert (H : NoDup (map fst [("a.cpp", Scenarios.raw_lf); ("b.cpp", Scenarios.raw_lf)]))
    by (repeat constructor; cbn; intuition discriminate).
  split; [exact H | exact (batch_index_files_hashes Scenarios.ts_empty Scenarios.enc Scenarios.sha_id _
                             Scenarios.world_old H)].
Defined.

(** X15: for files with distinct paths whose bytes read back unchanged
    (well-formed UTF-8 without carriage return), a change check run right
    after another one finds nothing to re-index and leaves the store as it
    is: every file the first check indexed now has the hash of its bytes,
    and every file it skipped kept its row and hash. *)
Theorem check_for_changes_settles : forall ts encode sha found w,
  NoDup (map fst found) ->
  (forall x, In x found -> read_text (snd x) = snd x) ->
  check_for_changes ts encode sha found (snd (check_for_changes ts encode sha found w)) =
  (Ok [], snd (check_for_changes ts encode sha found w)).
Proof.
  intros ts encode sha found w Hnd Hcr.
  set (w1 := snd (check_for_changes ts encode sha found w)).
  assert (Hall : forall x, In x found -> is_changed sha (files (db w1)) x = false).
  { intros [path raw] Hx. apply ServerFacts.is_changed_false.
    assert (Hraw : read_text raw = raw) by exact (Hcr _ Hx).
    unfold w1, check_for_changes. cbv zeta.
    remember (filter (is_changed sha (files (db w))) found) as ch eqn:Ef.
    destruct ch as [|y ys].
    - cbn [snd]. apply ServerFacts.is_changed_false.
      apply (filter_nil_false _ found); [symmetry; exact Ef | exact Hx].
    - rewrite Ef.
      assert (Hnd' : NoDup (map fst (filter (is_changed sha (files (db w))) found)))
        by (apply nodup_map_filter, Hnd).
      destruct (batch_keys ts encode sha _ w Hnd') as [K1 K2].
      destruct (is_changed sha (files (db w)) (path, raw)) eqn:Ec.
      + destruct (K1 path raw (proj2 (filter_In _ _ _) (conj Hx Ec))) as [i [h [E Hh]]].
        destruct (find_file path _) as [r|]; cbn in E; [|discriminate E].
        injection E as _ _ Er. exists r. split; [reflexivity|]. rewrite Er, Hh, Hraw. reflexivity.
      + apply ServerFacts.is_changed_false in Ec as [r0 [Hf0 Hh0]].
        assert (Hn : ~ In path (map fst (filter (is_changed sha (files (db w))) found))).
        { intros Hin. apply in_map_iff in Hin as [y' [Hy Hin]].
          apply filter_In in Hin as [Hin Hc].
          assert (Eq : y' = (path, raw)) by (apply (nodup_map_eq fst found); assumption).
          subst y'. apply Bool.not_true_iff_false in Hc; [exact Hc|].
          apply ServerFacts.is_changed_false. exists r0. split; assumption. }
        specialize (K2 path Hn). rewrite Hf0 in K2.
        destruct (find_file path _) as [r|]; cbn in K2; [|discriminate K2].
        injection K2 as _ _ Er. exists r. split; [reflexivity | congruence]. }
  unfold check_for_changes at 1. cbv zeta.
  rewrite (IndexerFacts.filter_drop_all _ found Hall). reflexivity.
Qed.

Lemma check_for_changes_settles_witness :
  NoDup (map fst [("a.cpp", Scenarios.raw_lf); ("b.cpp", Scenarios.raw_lf)]) /\
  (forall x, In x [("a.cpp", Scenarios.raw_lf); ("b.cpp", Scenarios.raw_lf)] ->
     read_text (snd x) = snd x) /\
  check_for_changes Scenarios.ts_empty Scenarios.enc Scenarios.sha_id
    [("a.cpp", Scenarios.raw_lf); ("b.cpp", Scenarios.raw_lf)]
    (snd (check_for_changes Scenarios.ts_empty Scenarios.enc Scenarios.sha_id
            [("a.cpp", Scenarios.raw_lf); ("b.cpp", Scenarios.raw_lf)] Scenarios.world_old)) =
  (Ok [], snd (check_for_changes Scenarios.ts_empty Scenarios.enc Scenarios.sha_id
                 [("a.cpp", Scenarios.raw_lf); ("b.cpp", Scenarios.raw_lf)] Scenarios.world_old)).
Proof.
  assert (H1 : NoDup (map fst [("a.cpp", Scenarios.raw_lf); ("b.cpp", Scenarios.raw_lf)]))
    by (repeat constructor; cbn; intuition discriminate).
  assert (H2 : forall x, In x [("a.cpp", Scenarios.raw_lf); ("b.cpp", Scenarios.raw_lf)] ->
                 read_text (snd x) = snd x)
    by (intros x [<-|[<-|[]]]; vm_compute; reflexivity).
  split; [exact H1 | split; [exact H2 |]].
  exact (check_for_changes_settles Scenarios.ts_empty Scenarios.enc Scenarios.sha_id _
           Scenarios.world_old H1 H2).
Defined.

Lemma index_cpp_file_keeps_graph : forall R0 encode ts fid content,
  match parse_cpp_file ts content with
  | Some (es, _, _) => names_nonempty es = true
  | None => True
  end ->
  keeps (graph_inv R0) (fun _ => True) (index_cpp_file encode ts fid content).
Proof.
  intros R0 encode ts fid content Hp. unfold index_cpp_file, index_file.
  destruct (parse_cpp_file ts content) as [[[es rs] cs]|] eqn:E;
    [|apply IndexerFacts.frame_keeps, IndexerFacts.simple_file_indexing_frame].
  pose proof (ParserFacts.parse_file_rel_shape _ _ _ _ _ E) as Hshape.
  apply IndexerFacts.keeps_transaction.
  apply (IndexerFacts.keeps_bind _ (fun _ => True)); [apply IndexerFacts.delete_keeps|]. intros _ _.
  apply (IndexerFacts.keeps_bind _ (fun m => keys_nonempty m = true));
    [apply IndexerFacts.insert_entities_keeps; [exact Hp | reflexivity]|]. intros emap Hm.
  apply (IndexerFacts.keeps_bind _ (fun _ => True));
    [apply IndexerFacts.keeps_mapM_; intros; apply IndexerFacts.resolve_parent_keeps|]. intros _ _.
  apply (IndexerFacts.keeps_bind _ (fun _ => True)).
  { apply IndexerFacts.keeps_mapM_. intros rel Hin. apply IndexerFacts.insert_relationship_keeps; [exact Hm|].
    rewrite Forall_forall in Hshape. apply Hshape, Hin. }
  intros _ _.
  apply (IndexerFacts.keeps_bind _ (fun _ => True));
    [apply IndexerFacts.frame_keeps, IndexerFacts.frame_mapM_; intros; apply IndexerFacts.insert_chunk_frame|].
  intros _ _. apply IndexerFacts.frame_keeps, IndexerFacts.mark_indexed_frame.
Qed.

Lemma upsert_file_keeps_graph : forall R0 path hash,
  keeps (graph_inv R0) (fun _ => True) (upsert_file path hash).
Proof.
  intros R0 path hash w Hw. unfold upsert_file.
  destruct (find_file path (files (db w))); split; solve [exact Hw | exact I].
Qed.

Lemma catch_file_keeps : forall Inv (Q : unit -> Prop) m,
  keeps Inv Q m -> keeps Inv (fun _ => True) (catch_file m).
Proof.
  intros Inv Q m Hm w Hw. unfold catch_file. destruct (Hm w Hw) as [H1 _].
  destruct (m w) as [[]]; split; solve [exact H1 | exact I].
Qed.

Lemma mapM_keeps : forall {A B} Inv (f : A -> M B) l,
  (forall x, In x l -> keeps Inv (fun _ => True) (f x)) -> keeps Inv (fun _ => True) (mapM f l).
Proof.
  intros A B Inv f l. induction l as [|x l IH]; intros H; cbn [mapM].
  - apply IndexerFacts.keeps_ret. exact I.
  - apply (IndexerFacts.keeps_bind _ (fun _ => True)); [apply H; left; reflexivity|]. intros y _.
    apply (IndexerFacts.keeps_bind _ (fun _ => True)); [apply IH; intros; apply H; right; assumption|].
    intros ys _. apply IndexerFacts.keeps_ret. exact I.
Qed.

Lemma batch_keeps_graph : forall R0 ts encode sha fs,
  Forall (fun x => match parse_cpp_file ts (read_text (snd x)) with
                   | Some (es, _, _) => names_nonempty es = true
                   | None => True
                   end) fs ->
  keeps (graph_inv R0) (fun _ => True) (batch_index_files ts encode sha fs).
Proof.
  intros R0 ts encode sha fs Hfs. unfold batch_index_files. apply mapM_keeps.
  intros [path raw] Hin. rewrite Forall_forall in Hfs. specialize (Hfs _ Hin). cbn [snd] in Hfs.
  unfold index_one.
  apply (IndexerFacts.keeps_bind _ (fun _ => True)); [apply upsert_file_keeps_graph|]. intros fid _.
  apply (IndexerFacts.keeps_bind _ (fun _ => True));
    [apply (catch_file_keeps _ (fun _ => True)), index_cpp_file_keeps_graph, Hfs|].
  intros _ _. apply IndexerFacts.keeps_ret. exact I.
Qed.

Lemma call_refs_nil : forall d side other eid,
  (forall r, In r (rels d) -> sr_type r <> "calls") -> call_refs d side other eid = [].
Proof.
  intros d side other eid H. unfold call_refs.
  assert (E : forall l, (forall r, In r l -> sr_type r <> "calls") ->
     flat_map (fun r =>
       if (other r =? eid) && String.eqb (sr_type r) "calls" then
         match find (fun e => se_id e =? side r) (ents d) with
         | Some e => match file_path_of d (se_file e) with
                     | Some p => [(se_qname e, se_type e, p)]
                     | None => []
                     end
         | None => []
         end
       else []) l = []).
  { intros l. induction l as [|r l IH]; intros Hl; [reflexivity|]. cbn [flat_map].
    assert (Hr : String.eqb (sr_type r) "calls" = false)
      by (apply String.eqb_neq, Hl; left; reflexivity).
    rewrite Hr, andb_false_r. apply IH. intros r' Hr'. apply Hl. right. exact Hr'. }
  rewrite (E _ H). reflexivity.
Qed.

(** X16: in a store without call edges, with its relationship rows between
    stored entities and non-empty cache keys, [batch_index_files] on files
    whose parsed entities all have non-empty qualified names stores no call
    edge (the parser gives calls the caller [""], which then matches no
    entity name and no cache key), so [explain_code] never lists a caller or
    a callee, whatever entity is asked for. Without the condition on names
    a call edge can be stored: [_get_node_text] gives empty names after
    non-ASCII text. *)
Theorem explain_code_no_call_refs : forall ts encode sha fs w entity include_callers include_callees,
  ri_ok (db w) = true -> keys_nonempty (cache w) = true ->
  (forall r, In r (rels (db w)) -> sr_type r <> "calls") ->
  Forall (fun x => match parse_cpp_file ts (read_text (snd x)) with
                   | Some (es, _, _) => names_nonempty es = true
                   | None => True
                   end) fs ->
  match explain_code (db (snd (batch_index_files ts encode sha fs w))) entity
                     include_callers include_callees with
  | Some (Explained _ _ _ _ _ _ _ callers callees) =>
      callers = (if include_callers then Some [] else None) /\
      callees = (if include_callees then Some [] else None)
  | _ => True
  end.
Proof.
  intros ts encode sha fs w entity b1 b2 Hri Hk Hno Hfs.
  destruct (batch_keeps_graph (rels (db w)) ts encode sha fs Hfs w) as [[[_ Hnew] _] _].
  { split; [split; [exact Hri | intros r Hr; left; exact Hr] | exact Hk]. }
  set (d := db (snd (batch_index_files ts encode sha fs w))) in *.
  assert (Hd : forall r, In r (rels d) -> sr_type r <> "calls").
  { intros r Hr. destruct (Hnew r Hr) as [Hin|Ht]; [apply Hno, Hin | rewrite Ht; discriminate]. }
  unfold explain_code.
  destruct (filter_opt _ _) as [[|e es]|]; try exact I.
  rewrite !call_refs_nil by exact Hd. split; [destruct b1 | destruct b2]; reflexivity.
Qed.

Lemma explain_code_no_call_refs_witness :
  ri_ok (db Scenarios.world_f) = true /\ keys_nonempty (cache Scenarios.world_f) = true /\
  (forall r, In r (rels (db Scenarios.world_f)) -> sr_type r <> "calls") /\
  Forall (fun x => match parse_cpp_file (fun _ => Trees.tree_call) (read_text (snd x)) with
                   | Some (es, _, _) => names_nonempty es = true
                   | None => True
                   end) [("a.cpp", Trees.src_call)] /\
  match explain_code (db (snd (batch_index_files (fun _ => Trees.tree_call) Scenarios.enc
                                 Scenarios.sha_id [("a.cpp", Trees.src_call)] Scenarios.world_f)))
                     "g" true true with
  | Some (Explained _ _ _ _ _ _ _ callers callees) =>
      callers = (if true then Some [] else None) /\ callees = (if true then Some [] else None)
  | _ => True
  end.
Proof.
  assert (H1 : ri_ok (db Scenarios.world_f) = true) by (vm_compute; reflexivity).
  assert (H2 : keys_nonempty (cache Scenarios.world_f) = true) by (vm_compute; reflexivity).
  assert (H3 : forall r, In r (rels (db Scenarios.world_f)) -> sr_type r <> "calls")
    by (intros r []).
  assert (H4 : Forall (fun x => match parse_cpp_file (fun _ => Trees.tree_call) (read_text (snd x)) with
                   | Some (es, _, _) => names_nonempty es = true
                   | None => True
                   end) [("a.cpp", Trees.src_call)])
    by (constructor; [vm_compute; reflexivity | constructor]).
  split; [exact H1 | split; [exact H2 | split; [exact H3 | split; [exact H4 |]]]].
  exact (explain_code_no_call_refs (fun _ => Trees.tree_call) Scenarios.enc Scenarios.sha_id
           [("a.cpp", Trees.src_call)] Scenarios.world_f "g" true true H1 H2 H3 H4).
Defined.

End ServerExtras.
